(** * 2D feature tracking: keypoint extraction and descriptor matching

    A shallow embedding of [src/matching2D_Student.cpp]: the Harris keypoint
    loop with its non-maximum suppression, the descriptor matcher with its
    distance-ratio test, and the string dispatch that selects a detector or a
    descriptor extractor.

    Conventions.
    - [float] and [double] values are rationals ([Q]); every constant of the
      source ([0.8], [0.0], [2 * apertureSize], pixel indices, 8-bit
      responses) is exactly representable there.
    - A [std::vector] is a [list]; an iterator walk is a structural recursion.
    - The vision library (OpenCV) is not part of the repository.  Its
      functions are Section variables: [overlap] for
      [cv::KeyPoint::overlap], [cornerHarris] and [normalize] for the response
      map, [convertTo] for [cv::Mat::convertTo], and a record of functions
      for a [cv::DescriptorMatcher].
    - A null [cv::Ptr] dereference and an out-of-range [operator[]] are
      undefined in C++; the embedding makes them explicit [Fault]s. *)

From Stdlib Require Import String Ascii.
From Stdlib Require Import List ZArith QArith Bool Arith Lia Lqa Sorted.
Import ListNotations.

Open Scope Q_scope.

(** ** Numbers *)

(** [a > b] on [float]/[double], as a boolean. *)
Definition Qgtb (a b : Q) : bool := negb (Qle_bool a b).

(** [a < b]. *)
Definition Qltb (a b : Q) : bool := Qgtb b a.

(** The C cast [(int)x] of a floating-point value: truncation toward zero.
    The cast is defined for values within the range of [int]; the one use
    in the source is on a response normalized to [0, 255]. *)
Definition int_of_float (x : Q) : Z := Z.quot (Qnum x) (Zpos (Qden x)).

(** ** Data model *)

(** [cv::KeyPoint]; a default-constructed one has [pt = (0,0)], [size = 0],
    [angle = -1], [response = 0], [octave = 0], [class_id = -1]. *)
Record KeyPoint := mkKeyPoint {
  pt_x : Q;
  pt_y : Q;
  size : Q;
  angle : Q;
  response : Q;
  octave : Z;
  class_id : Z
}.

Definition KeyPoint_default : KeyPoint :=
  mkKeyPoint 0 0 0 (-1) 0 0%Z (-1)%Z.

(** Element depth of a [cv::Mat] (single channel). *)
Inductive MatDepth :=
  CV_8U | CV_8S | CV_16U | CV_16S | CV_32S | CV_32F | CV_64F | CV_16F.

Definition MatDepth_eqb (a b : MatDepth) : bool :=
  match a, b with
  | CV_8U, CV_8U | CV_8S, CV_8S | CV_16U, CV_16U | CV_16S, CV_16S
  | CV_32S, CV_32S | CV_32F, CV_32F | CV_64F, CV_64F | CV_16F, CV_16F => true
  | _, _ => false
  end.

(** [cv::Mat]: an element type and the rows of values. *)
Record Mat := mkMat {
  mat_type : MatDepth;
  mat_data : list (list Q)
}.

Definition mat_rows (m : Mat) : nat := length (mat_data m).
Definition mat_cols (m : Mat) : nat := length (hd [] (mat_data m)).

(** [m.at<float>(i, j)]. *)
Definition mat_at (m : Mat) (i j : nat) : Q := nth j (nth i (mat_data m) []) 0.

(** ** Harris keypoints and non-maximum suppression *)

Section HarrisLoop.

(** [cv::KeyPoint::overlap(kp1, kp2)]. *)
Variable overlap : KeyPoint -> KeyPoint -> Q.

(** The locals [maxOverlap], [minResponse] and [apertureSize] of the
    source, kept as parameters; the source fixes them to [0.0], [120]
    and [3]. *)
Variable maxOverlap : Q.
Variable minResponse : Z.
Variable apertureSize : Z.

(** Lines 160-163: the candidate built at row [i], column [j] from the
    truncated response.  The position is [cv::Point2f(j, i)], the pixel
    indices as [float], which holds them exactly up to 2^24; the embedding
    covers maps within that size. *)
Definition newKeyPoint_at (i j : nat) (resp : Z) : KeyPoint :=
  mkKeyPoint (inject_Z (Z.of_nat j)) (inject_Z (Z.of_nat i))
             (inject_Z (2 * apertureSize)) (-1) (inject_Z resp) 0%Z (-1)%Z.

(** Lines 166-177: the walk over [keypoints].  Returns [bOverlap] and the
    vector after the walk; a replacement ends the walk ([break]). *)
Fixpoint nms_walk (newKeyPoint : KeyPoint) (keypoints : list KeyPoint)
  : bool * list KeyPoint :=
  match keypoints with
  | [] => (false, [])
  | it :: rest =>
      if Qgtb (overlap newKeyPoint it) maxOverlap then
        if Qgtb (response newKeyPoint) (response it) then
          (true, newKeyPoint :: rest)
        else
          let '(_, rest') := nms_walk newKeyPoint rest in
          (true, it :: rest')
      else
        let '(b, rest') := nms_walk newKeyPoint rest in
        (b, it :: rest')
  end.

(** Lines 166-182: suppression of one candidate against the vector. *)
Definition nms_step (keypoints : list KeyPoint) (newKeyPoint : KeyPoint)
  : list KeyPoint :=
  let '(bOverlap, keypoints') := nms_walk newKeyPoint keypoints in
  if negb bOverlap then keypoints' ++ [newKeyPoint] else keypoints'.

(** Lines 157-183: the body of the inner loop at pixel [(i, j)]. *)
Definition harris_pixel (dst_norm : Mat) (i : nat)
           (keypoints : list KeyPoint) (j : nat) : list KeyPoint :=
  let response := int_of_float (mat_at dst_norm i j) in
  if (response >? minResponse)%Z
  then nms_step keypoints (newKeyPoint_at i j response)
  else keypoints.

(** Lines 156-184: one row. *)
Definition harris_row (dst_norm : Mat) (keypoints : list KeyPoint) (i : nat)
  : list KeyPoint :=
  fold_left (harris_pixel dst_norm i) (seq 0 (mat_cols dst_norm)) keypoints.

(** Lines 155-185: the whole scan, rows outermost. *)
Definition harris_loop (dst_norm : Mat) (keypoints : list KeyPoint)
  : list KeyPoint :=
  fold_left (harris_row dst_norm) (seq 0 (mat_rows dst_norm)) keypoints.

(** The candidates in the order the scan meets them: the pixels whose
    truncated response exceeds [minResponse], row by row. *)
Definition row_candidates (dst_norm : Mat) (i : nat) : list KeyPoint :=
  flat_map (fun j =>
              let response := int_of_float (mat_at dst_norm i j) in
              if (response >? minResponse)%Z
              then [newKeyPoint_at i j response] else [])
           (seq 0 (mat_cols dst_norm)).

Definition candidates (dst_norm : Mat) : list KeyPoint :=
  flat_map (row_candidates dst_norm) (seq 0 (mat_rows dst_norm)).

(** [overlap(k1, k2) > maxOverlap]. *)
Definition overlapping (k1 k2 : KeyPoint) : Prop :=
  maxOverlap < overlap k1 k2.

End HarrisLoop.

Section HarrisDetector.

Variable overlap : KeyPoint -> KeyPoint -> Q.

(** [cv::cornerHarris(img, dst, blockSize, apertureSize, k, borderType)]
    (with [BORDER_DEFAULT]) and
    [cv::normalize(dst, dst_norm, 0, 255, NORM_MINMAX, CV_32FC1)]. *)
Variable cornerHarris : Mat -> Z -> Z -> Q -> Mat.
Variable normalize : Mat -> Q -> Q -> Mat.

(** [detKeypointsHarris(keypoints, img)]: the vector after the call. *)
Definition detKeypointsHarris (keypoints : list KeyPoint) (img : Mat)
  : list KeyPoint :=
  let blockSize := 2%Z in
  let apertureSize := 3%Z in
  let k := 4 # 100 in
  let minResponse := 120%Z in
  let dst := cornerHarris img blockSize apertureSize k in
  let dst_norm := normalize dst 0 255 in
  let maxOverlap := 0 in
  harris_loop overlap maxOverlap minResponse apertureSize dst_norm keypoints.

End HarrisDetector.

(** ** Shi-Tomasi keypoints *)

(** [std::max(a, b)] on [double]: [b] when [a < b], else [a]. *)
Definition std_max (a b : Q) : Q := if Qltb a b then b else a.

Section ShiTomasi.

(** [cv::goodFeaturesToTrack(img, corners, maxCorners, qualityLevel,
    minDistance, mask, blockSize, useHarrisDetector, k)]: the corners it
    writes, as [(x, y)] pairs. *)
Variable goodFeaturesToTrack :
  Mat -> Z -> Q -> Q -> Mat -> Z -> bool -> Q -> list (Q * Q).

(** Lines 97-100: the corner budget handed to the library.  The product
    [img.rows * img.cols] is an [int]; the embedding covers images of
    fewer than 2^31 pixels, beyond which that product overflows. *)
Definition shiTomasi_maxCorners (img : Mat) : Z :=
  let blockSize := 4%Z in
  let maxOverlap := 0 in
  let minDistance := (1 - maxOverlap) * inject_Z blockSize in
  int_of_float
    (inject_Z (Z.of_nat (mat_rows img) * Z.of_nat (mat_cols img))
     / std_max 1 minDistance).

(** Lines 114-117: the keypoint pushed for one corner; only [pt] and [size]
    are assigned. *)
Definition shiTomasi_keypoint (corner : Q * Q) : KeyPoint :=
  let blockSize := 4%Z in
  mkKeyPoint (fst corner) (snd corner) (inject_Z blockSize)
             (angle KeyPoint_default) (response KeyPoint_default)
             (octave KeyPoint_default) (class_id KeyPoint_default).

(** [detKeypointsShiTomasi(keypoints, img)]: the vector after the call. *)
Definition detKeypointsShiTomasi (keypoints : list KeyPoint) (img : Mat)
  : list KeyPoint :=
  let blockSize := 4%Z in
  let maxOverlap := 0 in
  let minDistance := (1 - maxOverlap) * inject_Z blockSize in
  let maxCorners := shiTomasi_maxCorners img in
  let qualityLevel := 1 # 100 in
  let k := 4 # 100 in
  let corners :=
    goodFeaturesToTrack img maxCorners qualityLevel minDistance
                        (mkMat CV_8U []) blockSize false k in
  fold_left (fun keypoints it => keypoints ++ [shiTomasi_keypoint it])
            corners keypoints.

End ShiTomasi.

(** ** Descriptor matching *)

(** [cv::DMatch]. *)
Record DMatch := mkDMatch {
  queryIdx : Z;
  trainIdx : Z;
  imgIdx : Z;
  distance : Q
}.

Inductive NormType := NORM_HAMMING | NORM_L2.

(** What the source asks of a [cv::DescriptorMatcher]: [match] and
    [knnMatch], each from the two descriptor matrices to the matches it
    writes into its output argument. *)
Record DescriptorMatcher := mkDescriptorMatcher {
  dm_match : Mat -> Mat -> list DMatch;
  dm_knnMatch : Mat -> Mat -> nat -> list (list DMatch)
}.

(** The two undefined operations the source can reach. *)
Inductive Fault := NullPointerDereference | IndexOutOfRange.

(** The caller's objects after [matchDescriptors], which takes the two
    matrices and the match vector by reference. *)
Record MatchOutcome := mkMatchOutcome {
  descSource_after : Mat;
  descRef_after : Mat;
  matches_after : list DMatch;
  fault : option Fault
}.

(** Line 43. *)
Definition min_desc_dist_ratio : Q := 8 # 10.

(** Line 45: the condition of the ratio test. *)
Definition ratio_accepts (best second : DMatch) : bool :=
  Qltb (distance best) (min_desc_dist_ratio * distance second).

(** Lines 44-48: the filter loop; elements 0 and 1 of the current neighbour
    list are read on every iteration.  A read past the end of a list is
    undefined in the source; the embedding records it as the fault
    [IndexOutOfRange] together with the matches appended until then, and
    says nothing of what the source does after such a read. *)
Fixpoint ratio_test (knn_matches : list (list DMatch)) (matches : list DMatch)
  : list DMatch * option Fault :=
  match knn_matches with
  | [] => (matches, None)
  | it :: rest =>
      match nth_error it 0, nth_error it 1 with
      | Some m0, Some m1 =>
          if ratio_accepts m0 m1
          then ratio_test rest (matches ++ [m0])
          else ratio_test rest matches
      | _, _ => (matches, Some IndexOutOfRange)
      end
  end.

Section Matching.

(** [cv::BFMatcher::create(normType, crossCheck)],
    [cv::FlannBasedMatcher::create()] and [m.convertTo(dst, rtype)]. *)
Variable BFMatcher_create : NormType -> bool -> DescriptorMatcher.
Variable FlannBasedMatcher_create : DescriptorMatcher.
Variable convertTo : Mat -> MatDepth -> Mat.

(** Lines 11-29: the matcher handle (a null [cv::Ptr] is [None]) and the
    two matrices as they are after the configuration step. *)
Definition configure_matcher (descSource descRef : Mat)
           (descriptorType matcherType : string)
  : option DescriptorMatcher * Mat * Mat :=
  let crossCheck := false in
  if (matcherType =? "MAT_BF")%string then
    let normType :=
      if (descriptorType =? "DES_BINARY")%string
      then NORM_HAMMING else NORM_L2 in
    (Some (BFMatcher_create normType crossCheck), descSource, descRef)
  else if (matcherType =? "MAT_FLANN")%string then
    if negb (MatDepth_eqb (mat_type descSource) CV_32F)
       || negb (MatDepth_eqb (mat_type descRef) CV_32F)
    then (Some FlannBasedMatcher_create,
          convertTo descSource CV_32F, convertTo descRef CV_32F)
    else (Some FlannBasedMatcher_create, descSource, descRef)
  else (None, descSource, descRef).

(** [matchDescriptors]; the keypoint vectors are not used by the body. *)
Definition matchDescriptors (descSource descRef : Mat)
           (matches : list DMatch)
           (descriptorType matcherType selectorType : string)
  : MatchOutcome :=
  let '(matcher, descSource, descRef) :=
    configure_matcher descSource descRef descriptorType matcherType in
  if (selectorType =? "SEL_NN")%string then
    match matcher with
    | None =>
        mkMatchOutcome descSource descRef matches
                       (Some NullPointerDereference)
    | Some m =>
        mkMatchOutcome descSource descRef (dm_match m descSource descRef)
                       None
    end
  else if (selectorType =? "SEL_KNN")%string then
    match matcher with
    | None =>
        mkMatchOutcome descSource descRef matches
                       (Some NullPointerDereference)
    | Some m =>
        let knn_matches := dm_knnMatch m descSource descRef 2 in
        let '(matches', f) := ratio_test knn_matches matches in
        mkMatchOutcome descSource descRef matches' f
    end
  else mkMatchOutcome descSource descRef matches None.

End Matching.

(** ** Detector and descriptor dispatch *)

Inductive FastType := TYPE_5_8 | TYPE_7_12 | TYPE_9_16.

(** The library objects the dispatch can create. *)
Inductive Feature2D :=
| BRISK_create (threshold octaves : Z) (patternScale : Q)
| BRISK_create_default
| ORB_create
| AKAZE_create
| FastFeatureDetector_create (threshold : Z) (nonmaxSuppression : bool)
                             (type : FastType).

(** The arms of the [if]/[else if] chain of [descKeypoints]. *)
Inductive DescBranch :=
  Desc_BRISK | Desc_ORB | Desc_AKAZE | Desc_FREAK | Desc_SIFT | Desc_else.

(** Lines 57-84: which arm a descriptor type selects. *)
Definition descKeypoints_branch (descriptorType : string) : DescBranch :=
  if (descriptorType =? "BRISK")%string then Desc_BRISK
  else if (descriptorType =? "ORB")%string then Desc_ORB
  else if (descriptorType =? "AKAZE")%string then Desc_AKAZE
  else if (descriptorType =? "FREAK")%string then Desc_FREAK
  else if (descriptorType =? "SIFT")%string then Desc_SIFT
  else Desc_else.

(** The body of each arm: the value of [extractor] after the chain.  The
    creations of the FREAK and SIFT arms are commented out in the source. *)
Definition descKeypoints_extractor (b : DescBranch) : option Feature2D :=
  match b with
  | Desc_BRISK =>
      let threshold := 30%Z in
      let octaves := 3%Z in
      let patternScale := 1 in
      Some (BRISK_create threshold octaves patternScale)
  | Desc_ORB => Some ORB_create
  | Desc_AKAZE => Some AKAZE_create
  | Desc_FREAK => None
  | Desc_SIFT => None
  | Desc_else => None
  end.

(** The arms of the chain of [detKeypointsModern]. *)
Inductive DetBranch :=
  Det_FAST | Det_BRISK | Det_ORB | Det_AKAZE | Det_FREAK | Det_SIFT | Det_else.

(** Lines 205-228. *)
Definition detKeypointsModern_branch (detectorType : string) : DetBranch :=
  if ("FAST" =? detectorType)%string then Det_FAST
  else if ("BRISK" =? detectorType)%string then Det_BRISK
  else if ("ORB" =? detectorType)%string then Det_ORB
  else if ("AKAZE" =? detectorType)%string then Det_AKAZE
  else if ("FREAK" =? detectorType)%string then Det_FREAK
  else if ("SIFT" =? detectorType)%string then Det_SIFT
  else Det_else.

Definition detKeypointsModern_detector (b : DetBranch) : option Feature2D :=
  match b with
  | Det_FAST =>
      let thresholdFAST := 80%Z in
      let nonMaxSuppression := true in
      let type := TYPE_9_16 in
      Some (FastFeatureDetector_create thresholdFAST nonMaxSuppression type)
  | Det_BRISK => Some BRISK_create_default
  | Det_ORB => Some ORB_create
  | Det_AKAZE => Some AKAZE_create
  | Det_FREAK => None
  | Det_SIFT => None
  | Det_else => None
  end.

(** What a call leaves behind: the caller's objects, or the fault that
    ended it. *)
Inductive Outcome (A : Type) :=
| Returned (a : A)
| Faulted (f : Fault).
Arguments Returned {A} a.
Arguments Faulted {A} f.

Section Dispatch.

(** [extractor->compute(img, keypoints, descriptors)] and
    [detector->detect(img, keypoints)] on a non-null handle. *)
Variable compute : Feature2D -> Mat -> list KeyPoint -> list KeyPoint * Mat.
Variable detect : Feature2D -> Mat -> list KeyPoint.

(** [descKeypoints]: the keypoints and descriptors after the call. *)
Definition descKeypoints (keypoints : list KeyPoint) (img descriptors : Mat)
           (descriptorType : string) : Outcome (list KeyPoint * Mat) :=
  let extractor :=
    descKeypoints_extractor (descKeypoints_branch descriptorType) in
  match extractor with
  | None => Faulted NullPointerDereference
  | Some e => Returned (compute e img keypoints)
  end.

(** [detKeypointsModern]: the keypoints after the call. *)
Definition detKeypointsModern (keypoints : list KeyPoint) (img : Mat)
           (detectorType : string) : Outcome (list KeyPoint) :=
  let detector :=
    detKeypointsModern_detector (detKeypointsModern_branch detectorType) in
  match detector with
  | None => Faulted NullPointerDereference
  | Some d => Returned (detect d img)
  end.

End Dispatch.

(** ** Instances used to run the code on concrete inputs *)

(** The sign of [cv::KeyPoint::overlap]: 1 where the library's value is
    positive, 0 where it is 0.  The library takes the two keypoints as discs
    of diameter [size]; with [a], [b] the radii and [c] the distance of the
    centres it returns [min(a², b²) / max(a², b²)] when one disc lies in the
    other ([min(a,b) + c <= max(a,b)]), the ratio of the intersection area to
    the union area when the discs cross ([c < a + b]), and 0 otherwise.  The
    source compares the value with [maxOverlap = 0.0] only, so the sign
    decides every test it makes.  Distances are compared through their
    squares. *)
Definition sq_dist (kp1 kp2 : KeyPoint) : Q :=
  (pt_x kp1 - pt_x kp2) * (pt_x kp1 - pt_x kp2)
  + (pt_y kp1 - pt_y kp2) * (pt_y kp1 - pt_y kp2).

Definition overlap_sign (kp1 kp2 : KeyPoint) : Q :=
  let a := size kp1 * (1 # 2) in
  let b := size kp2 * (1 # 2) in
  let lo := if Qle_bool a b then a else b in
  let hi := if Qle_bool a b then b else a in
  let c_2 := sq_dist kp1 kp2 in
  if Qle_bool c_2 ((hi - lo) * (hi - lo)) then
    if Qgtb (lo * lo) 0 && Qgtb (hi * hi) 0 then 1 else 0
  else if Qgtb (a + b) 0 && Qltb c_2 ((a + b) * (a + b)) then 1
  else 0.

(** A keypoint as the Harris loop builds it with [apertureSize = 3]. *)
Definition harris_kp (x y resp : Z) : KeyPoint :=
  mkKeyPoint (inject_Z x) (inject_Z y) 6 (-1) (inject_Z resp) 0%Z (-1)%Z.

(** A response map from its rows of integer values. *)
Definition response_map (rows : list (list Z)) : Mat :=
  mkMat CV_32F (map (map inject_Z) rows).

(** Two equal responses eight pixels apart in row 0 and a stronger one in
    row 3, five pixels from each. *)
Definition map_two_then_between : Mat :=
  response_map
    [ [130; 0; 0; 0; 0; 0; 0; 0; 130];
      [0; 0; 0; 0; 0; 0; 0; 0; 0];
      [0; 0; 0; 0; 0; 0; 0; 0; 0];
      [0; 0; 0; 0; 255; 0; 0; 0; 0] ]%Z.

(** A strong and a weak response in row 0, a middle one in row 3 near both,
    and two further ones near the middle one only. *)
Definition map_threshold : Mat :=
  response_map
    [ [255; 0; 0; 0; 0; 0; 0; 0; 125; 0];
      [0; 0; 0; 0; 0; 0; 0; 0; 0; 0];
      [0; 0; 0; 0; 0; 0; 0; 0; 0; 0];
      [0; 0; 0; 0; 200; 0; 0; 0; 0; 150];
      [0; 0; 0; 0; 0; 0; 0; 0; 0; 0];
      [0; 0; 0; 0; 0; 0; 0; 0; 0; 0];
      [0; 0; 0; 0; 0; 0; 0; 0; 0; 0];
      [0; 0; 0; 0; 0; 0; 0; 0; 0; 0];
      [0; 0; 0; 0; 150; 0; 0; 0; 0; 0] ]%Z.

(** A normalized map with a value between two integers: 120.5 at column 1. *)
Definition map_fraction : Mat :=
  mkMat CV_32F [ [0; 241 # 2; 255] ].

(** A normalized map with the value 200.5 at column 1. *)
Definition map_fraction_high : Mat :=
  mkMat CV_32F [ [0; 401 # 2; 255] ].

(** Two candidates far apart. *)
Definition map_far_apart : Mat :=
  response_map
    [ [200; 0; 0; 0; 0; 0; 0; 0; 0; 150] ]%Z.

(** The 5x5 map with the value [v] at row [r], column [c] and 0 elsewhere. *)
Definition single_pixel_map (r c : nat) (v : Q) : Mat :=
  mkMat CV_32F
        (map (fun i => map (fun j => if Nat.eqb i r && Nat.eqb j c
                                     then v else 0)
                           (seq 0 5))
             (seq 0 5)).

(** An exhaustive matcher: every reference row is a neighbour of every
    source row, at the squared Euclidean distance, nearest first. *)
Definition sq_euclid (u v : list Q) : Q :=
  fold_left Qplus (map (fun p => (fst p - snd p) * (fst p - snd p))
                       (combine u v)) 0.

Fixpoint insert_nearest (m : DMatch) (l : list DMatch) : list DMatch :=
  match l with
  | [] => [m]
  | x :: rest =>
      if Qltb (distance m) (distance x) then m :: l
      else x :: insert_nearest m rest
  end.

Definition neighbours (descRef : Mat) (q : nat) (u : list Q) : list DMatch :=
  fold_right insert_nearest []
    (map (fun p => mkDMatch (Z.of_nat q) (Z.of_nat (fst p)) 0
                            (sq_euclid u (snd p)))
         (combine (seq 0 (mat_rows descRef)) (mat_data descRef))).

Definition all_neighbours (descSource descRef : Mat) : list (list DMatch) :=
  map (fun p => neighbours descRef (fst p) (snd p))
      (combine (seq 0 (mat_rows descSource)) (mat_data descSource)).

Definition exhaustive_matcher : DescriptorMatcher :=
  mkDescriptorMatcher
    (fun descSource descRef =>
       flat_map (firstn 1) (all_neighbours descSource descRef))
    (fun descSource descRef k =>
       map (firstn k) (all_neighbours descSource descRef)).

(** A conversion that keeps every value and sets the element type; exact
    for 8-bit descriptors converted to [CV_32F]. *)
Definition convertTo_exact (m : Mat) (rtype : MatDepth) : Mat :=
  mkMat rtype (mat_data m).

(** Binary descriptors (8-bit) and floating-point descriptors. *)
Definition desc_8u_source : Mat := mkMat CV_8U [ [0; 0]; [9; 9] ].
Definition desc_8u_ref : Mat := mkMat CV_8U [ [1; 0]; [0; 3]; [9; 8] ].
Definition desc_32f_source : Mat := mkMat CV_32F [ [0; 0]; [9; 9] ].
Definition desc_32f_ref : Mat := mkMat CV_32F [ [1; 0]; [0; 3]; [9; 8] ].
Definition desc_one_ref : Mat := mkMat CV_32F [ [1; 0] ].

(** Stand-ins for the two library calls that hand a prepared normalized
    response map through, to run [detKeypointsHarris] on a given map. *)
Definition cornerHarris_given (img : Mat) (blockSize apertureSize : Z) (k : Q)
  : Mat := img.
Definition normalize_given (dst : Mat) (alpha beta : Q) : Mat := dst.

(** A stand-in for [cv::goodFeaturesToTrack] that returns the first
    [maxCorners] of a prepared corner list. *)
Definition goodFeatures_given (corners : list (Q * Q))
           (img : Mat) (maxCorners : Z) (qualityLevel minDistance : Q)
           (mask : Mat) (blockSize : Z) (useHarrisDetector : bool) (k : Q)
  : list (Q * Q) :=
  firstn (Z.to_nat maxCorners) corners.

(** An 8-bit 4x6 image (its values play no part in the stand-ins). *)
Definition image_4x6 : Mat :=
  mkMat CV_8U (map (fun _ => map (fun _ => 0) (seq 0 6)) (seq 0 4)).

(** * Properties *)

(** ** Comparisons *)

Lemma Qgtb_true_iff (a b : Q) : Qgtb a b = true <-> b < a.
Proof.
  unfold Qgtb. rewrite negb_true_iff. split.
  - intros H. apply Qnot_le_lt. intros Hle.
    apply Qle_bool_iff in Hle. congruence.
  - intros H. destruct (Qle_bool a b) eqn:E; [|reflexivity].
    apply Qle_bool_iff in E. exfalso. exact (Qlt_not_le _ _ H E).
Qed.

Lemma Qgtb_false_iff (a b : Q) : Qgtb a b = false <-> ~ b < a.
Proof.
  rewrite <- Qgtb_true_iff. destruct (Qgtb a b); intuition congruence.
Qed.

Lemma Qltb_true_iff (a b : Q) : Qltb a b = true <-> a < b.
Proof. unfold Qltb. apply Qgtb_true_iff. Qed.

(** ** The suppression walk *)

Section HarrisProperties.

Variable overlap : KeyPoint -> KeyPoint -> Q.
Variable maxOverlap : Q.

Local Notation "'walk'" := (nms_walk overlap maxOverlap).
Local Notation "'step'" := (nms_step overlap maxOverlap).
Local Notation "'ovl'" := (overlapping overlap maxOverlap).

(** A candidate [c] beats an incumbent [k]: it overlaps it by more than
    [maxOverlap] and has the strictly greater response. *)
Local Notation "'beats' c k" :=
  (overlapping overlap maxOverlap c k /\ response k < response c)
    (at level 10, c at level 9, k at level 9).

Lemma nms_walk_length c kps : length (snd (walk c kps)) = length kps.
Proof.
  induction kps as [|it rest IH]; simpl; [reflexivity|].
  destruct (Qgtb (overlap c it) maxOverlap).
  - destruct (Qgtb (response c) (response it)); simpl; [reflexivity|].
    destruct (walk c rest); simpl in *. now rewrite IH.
  - destruct (walk c rest); simpl in *. now rewrite IH.
Qed.

Lemma nms_walk_flag c kps :
  fst (walk c kps) = existsb (fun it => Qgtb (overlap c it) maxOverlap) kps.
Proof.
  induction kps as [|it rest IH]; simpl; [reflexivity|].
  destruct (Qgtb (overlap c it) maxOverlap); simpl.
  - destruct (Qgtb (response c) (response it)); simpl; [reflexivity|].
    now destruct (walk c rest).
  - destruct (walk c rest); simpl in *. exact IH.
Qed.

Lemma nms_walk_flag_true c kps :
  fst (walk c kps) = true <-> exists k, In k kps /\ ovl c k.
Proof.
  rewrite nms_walk_flag, existsb_exists. unfold overlapping.
  split; intros [k [Hin H]]; exists k; split; auto;
    now apply Qgtb_true_iff.
Qed.

Lemma nms_walk_flag_false c kps :
  fst (walk c kps) = false <-> forall k, In k kps -> ~ ovl c k.
Proof.
  split.
  - intros H k Hin Hov.
    assert (fst (walk c kps) = true) by (apply nms_walk_flag_true; eauto).
    congruence.
  - intros H. destruct (fst (walk c kps)) eqn:E; [|reflexivity].
    apply nms_walk_flag_true in E. destruct E as [k [Hin Hov]].
    exfalso. eapply H; eauto.
Qed.

(** The first beaten incumbent is the one replaced; the walk stops there. *)
Lemma nms_walk_replace c l1 k l2 :
  (forall x, In x l1 -> ~ beats c x) ->
  beats c k ->
  walk c (l1 ++ k :: l2) = (true, l1 ++ c :: l2).
Proof.
  intros Hl1 [Hov Hresp].
  induction l1 as [|x l1 IH]; simpl.
  - apply Qgtb_true_iff in Hov. rewrite Hov.
    apply Qgtb_true_iff in Hresp. now rewrite Hresp.
  - assert (IH' : walk c (l1 ++ k :: l2) = (true, l1 ++ c :: l2))
      by (apply IH; intros y Hy; apply Hl1; now right).
    rewrite IH'.
    destruct (Qgtb (overlap c x) maxOverlap) eqn:Eo; [|reflexivity].
    destruct (Qgtb (response c) (response x)) eqn:Er; [|reflexivity].
    exfalso. apply (Hl1 x); [now left|].
    split; [apply Qgtb_true_iff in Eo; exact Eo
           |apply Qgtb_true_iff in Er; exact Er].
Qed.

(** With no beaten incumbent the vector is walked to its end, unchanged. *)
Lemma nms_walk_keep c kps :
  (forall x, In x kps -> ~ beats c x) ->
  snd (walk c kps) = kps.
Proof.
  induction kps as [|x rest IH]; intros H; simpl; [reflexivity|].
  assert (IH' : snd (walk c rest) = rest)
    by (apply IH; intros y Hy; apply H; now right).
  destruct (Qgtb (overlap c x) maxOverlap) eqn:Eo.
  - destruct (Qgtb (response c) (response x)) eqn:Er.
    + exfalso. apply (H x); [now left|].
      split; [apply Qgtb_true_iff in Eo; exact Eo
             |apply Qgtb_true_iff in Er; exact Er].
    + destruct (walk c rest); simpl in *. now rewrite IH'.
  - destruct (walk c rest); simpl in *. now rewrite IH'.
Qed.

(** Position by position, the walk keeps the incumbent or puts the
    candidate that beats it in its place. *)
Lemma nms_walk_nth c kps p k :
  nth_error kps p = Some k ->
  nth_error (snd (walk c kps)) p = Some k
  \/ (nth_error (snd (walk c kps)) p = Some c /\ beats c k).
Proof.
  revert p. induction kps as [|x rest IH]; intros p Hp.
  - destruct p; discriminate.
  - simpl. destruct (Qgtb (overlap c x) maxOverlap) eqn:Eo.
    + destruct (Qgtb (response c) (response x)) eqn:Er.
      * destruct p as [|p]; simpl in *.
        -- injection Hp as <-. right. split; [reflexivity|].
           split; [apply Qgtb_true_iff in Eo; exact Eo
                  |apply Qgtb_true_iff in Er; exact Er].
        -- now left.
      * destruct (walk c rest) as [b rest'] eqn:Ew; simpl in *.
        destruct p as [|p]; simpl in *; [now left|].
        apply IH in Hp. exact Hp.
    + destruct (walk c rest) as [b rest'] eqn:Ew; simpl in *.
      destruct p as [|p]; simpl in *; [now left|].
      apply IH in Hp. exact Hp.
Qed.

Lemma nms_step_unfold kps c :
  step kps c = if fst (walk c kps) then snd (walk c kps)
               else snd (walk c kps) ++ [c].
Proof.
  unfold nms_step. destruct (walk c kps) as [b l]; simpl.
  now destruct b.
Qed.

Lemma nms_step_append kps c :
  (forall k, In k kps -> ~ ovl c k) ->
  step kps c = kps ++ [c].
Proof.
  intros H. rewrite nms_step_unfold.
  assert (E : fst (walk c kps) = false) by now apply nms_walk_flag_false.
  rewrite E, nms_walk_keep; [reflexivity|].
  intros x Hx [Hov _]. exact (H x Hx Hov).
Qed.

Lemma nms_step_length_overlap kps c :
  (exists k, In k kps /\ ovl c k) ->
  length (step kps c) = length kps.
Proof.
  intros H. rewrite nms_step_unfold.
  apply nms_walk_flag_true in H. rewrite H. apply nms_walk_length.
Qed.

Lemma nms_step_length_le kps c : (length kps <= length (step kps c))%nat.
Proof.
  rewrite nms_step_unfold. destruct (fst (walk c kps)).
  - now rewrite nms_walk_length.
  - rewrite length_app, nms_walk_length. lia.
Qed.

Lemma nms_step_nth kps c p k :
  nth_error kps p = Some k ->
  nth_error (step kps c) p = Some k
  \/ (nth_error (step kps c) p = Some c /\ beats c k).
Proof.
  intros Hp. rewrite nms_step_unfold.
  assert (Hlt : (p < length (snd (walk c kps)))%nat).
  { rewrite nms_walk_length. apply nth_error_Some. congruence. }
  destruct (fst (walk c kps)).
  - now apply nms_walk_nth.
  - rewrite nth_error_app1 by exact Hlt. now apply nms_walk_nth.
Qed.

End HarrisProperties.

(** ** The scan as a fold over the candidates *)

Section HarrisScan.

Variable overlap : KeyPoint -> KeyPoint -> Q.
Variable maxOverlap : Q.
Variable minResponse : Z.
Variable apertureSize : Z.

Local Notation "'step'" := (nms_step overlap maxOverlap).
Local Notation "'ovl'" := (overlapping overlap maxOverlap).
Local Notation "'cands'" := (candidates minResponse apertureSize).
Local Notation "'scan'" :=
  (harris_loop overlap maxOverlap minResponse apertureSize).

Lemma harris_row_fold dst_norm i kps :
  harris_row overlap maxOverlap minResponse apertureSize dst_norm kps i
  = fold_left step (row_candidates minResponse apertureSize dst_norm i) kps.
Proof.
  unfold harris_row, row_candidates.
  generalize (seq 0 (mat_cols dst_norm)) as cols. intros cols. revert kps.
  induction cols as [|j cols IH]; intros kps; simpl; [reflexivity|].
  rewrite fold_left_app, IH. unfold harris_pixel.
  destruct (int_of_float (mat_at dst_norm i j) >? minResponse)%Z;
    reflexivity.
Qed.

Lemma harris_loop_fold dst_norm kps :
  scan dst_norm kps = fold_left step (cands dst_norm) kps.
Proof.
  unfold harris_loop, candidates.
  generalize (seq 0 (mat_rows dst_norm)) as rows. intros rows. revert kps.
  induction rows as [|i rows IH]; intros kps; simpl; [reflexivity|].
  now rewrite fold_left_app, IH, harris_row_fold.
Qed.

Lemma in_candidates dst_norm c :
  In c (cands dst_norm) <->
  exists i j,
    (i < mat_rows dst_norm)%nat /\ (j < mat_cols dst_norm)%nat /\
    (minResponse < int_of_float (mat_at dst_norm i j))%Z /\
    c = mkKeyPoint (inject_Z (Z.of_nat j)) (inject_Z (Z.of_nat i))
                   (inject_Z (2 * apertureSize)) (-1)
                   (inject_Z (int_of_float (mat_at dst_norm i j)))
                   0%Z (-1)%Z.
Proof.
  unfold candidates, row_candidates. rewrite in_flat_map. split.
  - intros [i [Hi Hc]]. rewrite in_flat_map in Hc.
    destruct Hc as [j [Hj Hc]].
    apply in_seq in Hi. apply in_seq in Hj.
    destruct (int_of_float (mat_at dst_norm i j) >? minResponse)%Z eqn:E;
      simpl in Hc; [|contradiction].
    destruct Hc as [<-|[]]. exists i, j.
    apply Z.gtb_lt in E. repeat split; lia || reflexivity.
  - intros [i [j [Hi [Hj [Hr ->]]]]]. exists i. split; [apply in_seq; lia|].
    rewrite in_flat_map. exists j. split; [apply in_seq; lia|].
    assert (E : (int_of_float (mat_at dst_norm i j) >? minResponse)%Z = true)
      by (apply Z.gtb_lt; lia).
    simpl. rewrite E. now left.
Qed.

(** Over a whole candidate sequence. *)
Lemma fold_step_length_le l kps :
  (length kps <= length (fold_left step l kps))%nat.
Proof.
  revert kps. induction l as [|c l IH]; intros kps; simpl; [lia|].
  etransitivity; [apply (nms_step_length_le overlap maxOverlap kps c)|].
  apply IH.
Qed.

Lemma fold_step_nth l kps p k :
  nth_error kps p = Some k ->
  nth_error (fold_left step l kps) p = Some k
  \/ exists c c',
      In c l /\ ovl c k /\ response k < response c /\
      In c' l /\ nth_error (fold_left step l kps) p = Some c'.
Proof.
  revert kps k. induction l as [|c l IH]; intros kps k Hp; simpl;
    [now left|].
  destruct (nms_step_nth overlap maxOverlap kps c p k Hp)
    as [Hkeep|[Hnew [Hov Hresp]]].
  - destruct (IH _ _ Hkeep) as [H|[d [d' [Hd [Ho [Hr [Hd' Hn]]]]]]];
      [now left|].
    right. exists d, d'. repeat split; auto.
  - right. destruct (IH _ _ Hnew) as [H|[d [d' [Hd [Ho [Hr [Hd' Hn]]]]]]].
    + exists c, c. repeat split; auto.
    + exists c, d'. repeat split; auto.
Qed.

(** Candidates none of which overlaps an earlier one are all kept. *)
Lemma ForallOrdPairs_before {A} (R : A -> A -> Prop) l1 c l2 :
  ForallOrdPairs R (l1 ++ c :: l2) -> forall k, In k l1 -> R k c.
Proof.
  induction l1 as [|a l1 IH]; intros H k Hk; [contradiction|].
  simpl in H. inversion H as [|? ? Ha Hrest]; subst.
  destruct Hk as [<-|Hk].
  - rewrite Forall_forall in Ha. apply Ha. apply in_or_app. right. now left.
  - now apply IH.
Qed.

Lemma ForallOrdPairs_filter {A} (R : A -> A -> Prop) f l :
  ForallOrdPairs R l -> ForallOrdPairs R (filter f l).
Proof.
  induction 1 as [|a l Ha Hl IH]; simpl; [constructor|].
  destruct (f a); [|exact IH]. constructor; [|exact IH].
  rewrite Forall_forall in *. intros x Hx. apply Ha.
  apply filter_In in Hx. tauto.
Qed.

Lemma fold_step_disjoint l acc :
  ForallOrdPairs (fun earlier later => ~ ovl later earlier) (acc ++ l) ->
  fold_left step l acc = acc ++ l.
Proof.
  revert acc. induction l as [|c l IH]; intros acc H; simpl.
  - now rewrite app_nil_r.
  - rewrite nms_step_append.
    + rewrite IH; rewrite <- app_assoc; [reflexivity|exact H].
    + intros k Hk. exact (ForallOrdPairs_before _ _ _ _ H k Hk).
Qed.

End HarrisScan.

Lemma Qgtb_inject_Z (a b : Z) : Qgtb (inject_Z a) (inject_Z b) = (a >? b)%Z.
Proof.
  unfold Qgtb, Qle_bool, inject_Z; simpl. rewrite !Z.mul_1_r.
  rewrite Z.gtb_ltb, Z.ltb_antisym. reflexivity.
Qed.

(** Raising the threshold filters the candidate sequence. *)
Lemma row_candidates_filter (T1 T2 apertureSize : Z) dst_norm i :
  (T1 <= T2)%Z ->
  row_candidates T2 apertureSize dst_norm i
  = filter (fun k => Qgtb (response k) (inject_Z T2))
           (row_candidates T1 apertureSize dst_norm i).
Proof.
  intros HT. unfold row_candidates.
  induction (seq 0 (mat_cols dst_norm)) as [|j cols IHc]; simpl;
    [reflexivity|].
  rewrite filter_app, <- IHc. f_equal.
  destruct (int_of_float (mat_at dst_norm i j) >? T2)%Z eqn:E2.
  - assert (E1 : (int_of_float (mat_at dst_norm i j) >? T1)%Z = true)
      by (apply Z.gtb_lt; apply Z.gtb_lt in E2; lia).
    rewrite E1. simpl. now rewrite Qgtb_inject_Z, E2.
  - destruct (int_of_float (mat_at dst_norm i j) >? T1)%Z; simpl;
      [|reflexivity].
    now rewrite Qgtb_inject_Z, E2.
Qed.

Lemma candidates_filter (T1 T2 apertureSize : Z) dst_norm :
  (T1 <= T2)%Z ->
  candidates T2 apertureSize dst_norm
  = filter (fun k => Qgtb (response k) (inject_Z T2))
           (candidates T1 apertureSize dst_norm).
Proof.
  intros HT. unfold candidates.
  induction (seq 0 (mat_rows dst_norm)) as [|i rows IH]; simpl;
    [reflexivity|].
  now rewrite filter_app, <- IH, <- (row_candidates_filter T1 T2).
Qed.

(** ** Claims on the Harris extraction *)

(** C1 (evaluation of the code where the claim fails): on a response map
    with two equal responses eight pixels apart and a stronger response five
    pixels from each, met later in the scan, the stronger candidate replaces
    the first of the two and the walk stops; the returned vector holds two
    keypoints whose overlap is positive, although [maxOverlap] is 0. *)
Theorem harris_returns_overlapping_pair :
  let result := harris_loop overlap_sign 0 120 3 map_two_then_between [] in
  result = [harris_kp 4 3 255; harris_kp 8 0 130]
  /\ overlapping overlap_sign 0 (harris_kp 4 3 255) (harris_kp 8 0 130)
  /\ overlapping overlap_sign 0 (harris_kp 8 0 130) (harris_kp 4 3 255)
  /\ detKeypointsHarris overlap_sign cornerHarris_given normalize_given
                        [] map_two_then_between = result.
Proof.
  repeat split; vm_compute; reflexivity.
Qed.

(** C2 (as stated, refuted): the first incumbent the candidate overlaps has
    the greater response, yet the candidate is not dropped: the walk goes on
    and the candidate takes the place of a later, weaker incumbent. *)
Lemma first_overlap_stronger_candidate_kept :
  let kps := [harris_kp 0 0 250; harris_kp 8 0 130] in
  let c := harris_kp 4 3 200 in
  find (fun it => Qgtb (overlap_sign c it) 0) kps = Some (harris_kp 0 0 250)
  /\ ~ response (harris_kp 0 0 250) < response c
  /\ nms_step overlap_sign 0 kps c = [harris_kp 0 0 250; c]
  /\ nms_step overlap_sign 0 kps c <> kps.
Proof.
  repeat split; try (vm_compute; reflexivity).
  - vm_compute. discriminate.
  - vm_compute. discriminate.
Qed.

(** C2 (amended): for a candidate that overlaps some incumbent by more than
    [maxOverlap], the candidate takes the place of the first incumbent, in
    vector order, that it overlaps by more than [maxOverlap] and whose
    response is strictly lower, and every other entry is unchanged; when no
    overlapping incumbent has a strictly lower response the vector is left
    unchanged and the candidate is dropped. *)
Theorem nms_step_replaces_first_beaten :
  forall (overlap : KeyPoint -> KeyPoint -> Q) (maxOverlap : Q)
         (c : KeyPoint) (kps : list KeyPoint),
    (exists k, In k kps /\ overlapping overlap maxOverlap c k) ->
    (forall l1 k l2,
        kps = l1 ++ k :: l2 ->
        (forall x, In x l1 ->
                   ~ (overlapping overlap maxOverlap c x
                      /\ response x < response c)) ->
        overlapping overlap maxOverlap c k ->
        response k < response c ->
        nms_step overlap maxOverlap kps c = l1 ++ c :: l2)
    /\ ((forall x, In x kps ->
                   ~ (overlapping overlap maxOverlap c x
                      /\ response x < response c)) ->
        nms_step overlap maxOverlap kps c = kps).
Proof.
  intros overlap maxOverlap c kps Hex. split.
  - intros l1 k l2 -> Hl1 Hov Hresp.
    rewrite nms_step_unfold, nms_walk_replace; auto.
  - intros Hnone. rewrite nms_step_unfold.
    apply nms_walk_flag_true in Hex. rewrite Hex.
    now apply nms_walk_keep.
Qed.

Lemma nms_step_replaces_first_beaten_witness :
  nms_step overlap_sign 0 [harris_kp 0 0 250; harris_kp 8 0 130]
           (harris_kp 4 3 200)
  = [harris_kp 0 0 250; harris_kp 4 3 200]
  /\ nms_step overlap_sign 0 [harris_kp 0 0 250] (harris_kp 4 3 200)
     = [harris_kp 0 0 250].
Proof.
  split.
  - refine (proj1 (nms_step_replaces_first_beaten overlap_sign 0
                     (harris_kp 4 3 200)
                     [harris_kp 0 0 250; harris_kp 8 0 130] _)
                  [harris_kp 0 0 250] (harris_kp 8 0 130) [] eq_refl _ _ _).
    + exists (harris_kp 0 0 250). split; [now left|vm_compute; reflexivity].
    + intros x [<-|[]] [_ H]. vm_compute in H. discriminate.
    + vm_compute; reflexivity.
    + vm_compute; reflexivity.
  - refine (proj2 (nms_step_replaces_first_beaten overlap_sign 0
                     (harris_kp 4 3 200) [harris_kp 0 0 250] _) _).
    + exists (harris_kp 0 0 250). split; [now left|vm_compute; reflexivity].
    + intros x [<-|[]] [_ H]. vm_compute in H. discriminate.
Defined.

(** C4 (as stated, refuted): on one response map the scan with threshold
    130 returns three keypoints and the scan with threshold 120 returns
    two. *)
Lemma higher_threshold_more_keypoints :
  (120 < 130)%Z
  /\ length (harris_loop overlap_sign 0 120 3 map_threshold []) = 2%nat
  /\ length (harris_loop overlap_sign 0 130 3 map_threshold []) = 3%nat
  /\ ~ (length (harris_loop overlap_sign 0 130 3 map_threshold [])
        <= length (harris_loop overlap_sign 0 120 3 map_threshold []))%nat.
Proof.
  repeat split; try (vm_compute; reflexivity).
  vm_compute. lia.
Qed.

(** C4 (amended): for thresholds T1 < T2 on the same response map, the
    candidates that pass T2 are exactly the candidates that pass T1 whose
    response exceeds T2, in the same order, so there are no more of them;
    and when no T1-candidate overlaps an earlier T1-candidate by more than
    [maxOverlap], the keypoint count returned from an empty vector with
    threshold T2 is at most the count with threshold T1. *)
Theorem threshold_monotone_candidates :
  forall (overlap : KeyPoint -> KeyPoint -> Q) (maxOverlap : Q)
         (apertureSize T1 T2 : Z) (dst_norm : Mat),
    (T1 < T2)%Z ->
    candidates T2 apertureSize dst_norm
    = filter (fun k => Qgtb (response k) (inject_Z T2))
             (candidates T1 apertureSize dst_norm)
    /\ (length (candidates T2 apertureSize dst_norm)
        <= length (candidates T1 apertureSize dst_norm))%nat
    /\ (ForallOrdPairs
          (fun earlier later => ~ overlapping overlap maxOverlap later earlier)
          (candidates T1 apertureSize dst_norm) ->
        (length (harris_loop overlap maxOverlap T2 apertureSize dst_norm [])
         <= length (harris_loop overlap maxOverlap T1 apertureSize
                                dst_norm []))%nat).
Proof.
  intros overlap maxOverlap apertureSize T1 T2 dst_norm HT.
  assert (Hf := candidates_filter T1 T2 apertureSize dst_norm
                                  (Z.lt_le_incl _ _ HT)).
  split; [exact Hf|]. split.
  - rewrite Hf. apply filter_length_le.
  - intros Hd. rewrite !harris_loop_fold.
    rewrite (fold_step_disjoint overlap maxOverlap
               (candidates T1 apertureSize dst_norm) []) by exact Hd.
    rewrite (fold_step_disjoint overlap maxOverlap
               (candidates T2 apertureSize dst_norm) []).
    + simpl. rewrite Hf. apply filter_length_le.
    + simpl. rewrite Hf. now apply ForallOrdPairs_filter.
Qed.

Lemma threshold_monotone_candidates_witness :
  (length (harris_loop overlap_sign 0 160 3 map_far_apart [])
   <= length (harris_loop overlap_sign 0 120 3 map_far_apart []))%nat.
Proof.
  refine (proj2 (proj2 (threshold_monotone_candidates overlap_sign 0 3
                          120 160 map_far_apart _)) _).
  - reflexivity.
  - vm_compute. constructor.
    + constructor; [|constructor]. vm_compute. discriminate.
    + constructor; constructor.
Defined.

(** An incumbent that every candidate overlaps and none beats stays in place
    and lets no candidate be appended. *)
Lemma fold_step_guard (overlap : KeyPoint -> KeyPoint -> Q) (maxOverlap : Q)
      (l kps : list KeyPoint) (p : nat) (k : KeyPoint) :
  nth_error kps p = Some k ->
  (forall c, In c l -> overlapping overlap maxOverlap c k) ->
  (forall c, In c l -> ~ response k < response c) ->
  length (fold_left (nms_step overlap maxOverlap) l kps) = length kps
  /\ nth_error (fold_left (nms_step overlap maxOverlap) l kps) p = Some k.
Proof.
  revert kps. induction l as [|c l IH]; intros kps Hp Hov Hresp; simpl;
    [now split|].
  assert (Hlen : length (nms_step overlap maxOverlap kps c) = length kps).
  { apply nms_step_length_overlap. exists k. split.
    - eapply nth_error_In; eauto.
    - apply Hov. now left. }
  assert (Hk : nth_error (nms_step overlap maxOverlap kps c) p = Some k).
  { destruct (nms_step_nth overlap maxOverlap kps c p k Hp)
      as [H|[_ [_ H]]]; [exact H|].
    exfalso. apply (Hresp c); [now left|exact H]. }
  destruct (IH _ Hk) as [IHlen IHk].
  - intros d Hd. apply Hov. now right.
  - intros d Hd. apply Hresp. now right.
  - split; [congruence|exact IHk].
Qed.

(** C6 (as stated, refuted): a pixel whose normalized response 120.5
    exceeds the threshold 120 gives no candidate, and a pixel of normalized
    response 200.5 gives a candidate whose response is 200. *)
Lemma fractional_response_truncated :
  inject_Z 120 < mat_at map_fraction 0 1
  /\ candidates 120 3 map_fraction = [harris_kp 2 0 255]
  /\ harris_loop overlap_sign 0 120 3 map_fraction [] = [harris_kp 2 0 255]
  /\ candidates 120 3 map_fraction_high
     = [harris_kp 1 0 200; harris_kp 2 0 255]
  /\ ~ response (harris_kp 1 0 200) == mat_at map_fraction_high 0 1.
Proof.
  repeat split; try (vm_compute; reflexivity).
  vm_compute. discriminate.
Qed.

(** C6 (amended): the scan visits the pixels row by row and, for every pixel
    whose normalized response, truncated toward zero to an integer, strictly
    exceeds the threshold, builds a candidate at that pixel (x the column, y
    the row) with size 2 x apertureSize and response the truncated value;
    the candidates enter the suppression in that order.  A 5x5 map with a
    single pixel of normalized response 200 and threshold 120 yields, from
    an empty vector, exactly one keypoint, at that pixel. *)
Theorem harris_candidates_truncated :
  forall (overlap : KeyPoint -> KeyPoint -> Q) (maxOverlap : Q)
         (minResponse apertureSize : Z) (dst_norm : Mat)
         (keypoints : list KeyPoint),
    harris_loop overlap maxOverlap minResponse apertureSize dst_norm keypoints
    = fold_left (nms_step overlap maxOverlap)
                (candidates minResponse apertureSize dst_norm) keypoints
    /\ candidates minResponse apertureSize dst_norm
       = flat_map
           (fun i =>
              flat_map
                (fun j =>
                   if (int_of_float (mat_at dst_norm i j) >? minResponse)%Z
                   then [mkKeyPoint
                           (inject_Z (Z.of_nat j)) (inject_Z (Z.of_nat i))
                           (inject_Z (2 * apertureSize)) (-1)
                           (inject_Z (int_of_float (mat_at dst_norm i j)))
                           0%Z (-1)%Z]
                   else [])
                (seq 0 (mat_cols dst_norm)))
           (seq 0 (mat_rows dst_norm))
    /\ (forall c,
           In c (candidates minResponse apertureSize dst_norm) <->
           exists i j,
             (i < mat_rows dst_norm)%nat /\ (j < mat_cols dst_norm)%nat /\
             (minResponse < int_of_float (mat_at dst_norm i j))%Z /\
             c = mkKeyPoint
                   (inject_Z (Z.of_nat j)) (inject_Z (Z.of_nat i))
                   (inject_Z (2 * apertureSize)) (-1)
                   (inject_Z (int_of_float (mat_at dst_norm i j)))
                   0%Z (-1)%Z)
    /\ (forall row col,
           (row < 5)%nat -> (col < 5)%nat ->
           harris_loop overlap 0 120 3 (single_pixel_map row col 200) []
           = [mkKeyPoint (inject_Z (Z.of_nat col)) (inject_Z (Z.of_nat row))
                         6 (-1) 200 0%Z (-1)%Z]).
Proof.
  intros overlap maxOverlap minResponse apertureSize dst_norm keypoints.
  split; [apply harris_loop_fold|].
  split; [reflexivity|].
  split; [intros c; apply in_candidates|].
  intros row col Hr Hc.
  destruct row as [|[|[|[|[|row]]]]]; try lia;
    destruct col as [|[|[|[|[|col]]]]]; try lia; reflexivity.
Qed.

Lemma harris_candidates_truncated_witness :
  (2 < 5)%nat /\ (3 < 5)%nat
  /\ harris_loop overlap_sign 0 120 3 (single_pixel_map 2 3 200) []
     = [harris_kp 3 2 200].
Proof.
  split; [lia|]. split; [lia|].
  refine (proj2 (proj2 (proj2
            (harris_candidates_truncated overlap_sign 0 120 3
               (single_pixel_map 2 3 200) []))) 2%nat 3%nat _ _); lia.
Defined.

(** C10: [detKeypointsHarris] starts the suppression from the vector the
    caller supplies and never shortens it.  Every keypoint present before
    the call is still at its position afterwards, unless a candidate that
    overlaps it by more than [maxOverlap] with a strictly greater response
    took its place (the position then holds a candidate).  The keypoints
    already present are incumbents for the new candidates: a candidate that
    overlaps a keypoint of the current vector is not appended, and a
    keypoint supplied by the caller that every candidate overlaps and none
    exceeds in response lets none of them in. *)
Theorem detKeypointsHarris_keeps_supplied_keypoints :
  forall (overlap : KeyPoint -> KeyPoint -> Q)
         (cornerHarris : Mat -> Z -> Z -> Q -> Mat)
         (normalize : Mat -> Q -> Q -> Mat)
         (keypoints : list KeyPoint) (img : Mat),
    let dst_norm := normalize (cornerHarris img 2%Z 3%Z (4 # 100)) 0 255 in
    let cands := candidates 120 3 dst_norm in
    let result :=
      detKeypointsHarris overlap cornerHarris normalize keypoints img in
    result = fold_left (nms_step overlap 0) cands keypoints
    /\ (length keypoints <= length result)%nat
    /\ (forall p k,
           nth_error keypoints p = Some k ->
           nth_error result p = Some k
           \/ exists c c',
               In c cands /\ overlapping overlap 0 c k
               /\ response k < response c
               /\ In c' cands /\ nth_error result p = Some c')
    /\ (forall acc c k,
           In k acc -> overlapping overlap 0 c k ->
           length (nms_step overlap 0 acc c) = length acc)
    /\ (forall p k,
           nth_error keypoints p = Some k ->
           (forall c, In c cands -> overlapping overlap 0 c k) ->
           (forall c, In c cands -> ~ response k < response c) ->
           length result = length keypoints
           /\ nth_error result p = Some k).
Proof.
  intros overlap cornerHarris normalize keypoints img dst_norm cands result.
  assert (E : result = fold_left (nms_step overlap 0) cands keypoints)
    by apply harris_loop_fold.
  split; [exact E|]. rewrite E.
  split; [apply fold_step_length_le|].
  split; [intros p k Hp; now apply fold_step_nth|].
  split.
  - intros acc c k Hin Hov. apply nms_step_length_overlap. eauto.
  - intros p k Hp Hov Hresp. now apply fold_step_guard.
Qed.

Lemma detKeypointsHarris_keeps_supplied_keypoints_witness :
  let supplied := mkKeyPoint 4 2 6 (-1) 255 0%Z (-1)%Z in
  let result :=
    detKeypointsHarris overlap_sign cornerHarris_given normalize_given
                       [supplied] map_two_then_between in
  length result = 1%nat /\ nth_error result 0 = Some supplied.
Proof.
  intros supplied result.
  refine (proj2 (proj2 (proj2 (proj2
            (detKeypointsHarris_keeps_supplied_keypoints
               overlap_sign cornerHarris_given normalize_given
               [supplied] map_two_then_between)))) 0%nat supplied eq_refl _ _).
  - intros c Hc. vm_compute in Hc.
    destruct Hc as [<-|[<-|[<-|[]]]]; vm_compute; reflexivity.
  - intros c Hc. vm_compute in Hc.
    destruct Hc as [<-|[<-|[<-|[]]]]; vm_compute; discriminate.
Defined.

(** ** The ratio test *)

Lemma ratio_accepts_iff (best second : DMatch) :
  ratio_accepts best second = true
  <-> distance best < (8 # 10) * distance second.
Proof. unfold ratio_accepts. apply Qltb_true_iff. Qed.

(** With two neighbours in every list the loop runs to its end and keeps
    the best neighbour of exactly the lists that pass the test. *)
Lemma ratio_test_complete (knn : list (list DMatch)) (matches : list DMatch) :
  Forall (fun it => (2 <= length it)%nat) knn ->
  ratio_test knn matches
  = (matches ++
     flat_map (fun it =>
                 match it with
                 | best :: second :: _ =>
                     if ratio_accepts best second then [best] else []
                 | _ => []
                 end) knn,
     None).
Proof.
  intros H. revert matches.
  induction H as [|it knn Hit _ IH]; intros matches; simpl.
  - now rewrite app_nil_r.
  - destruct it as [|best [|second tl]]; simpl in Hit; try lia. simpl.
    destruct (ratio_accepts best second).
    + rewrite IH. now rewrite <- app_assoc.
    + now rewrite IH.
Qed.

(** Whatever the lists hold, the loop only appends, at most one match per
    list, each the first entry of a list. *)
Lemma ratio_test_appends (knn : list (list DMatch)) (matches : list DMatch) :
  exists produced,
    fst (ratio_test knn matches) = matches ++ produced
    /\ (length produced <= length knn)%nat
    /\ forall x, In x produced ->
                 exists it, In it knn /\ nth_error it 0 = Some x.
Proof.
  revert matches. induction knn as [|it knn IH]; intros matches; simpl.
  - exists []. rewrite app_nil_r.
    split; [reflexivity|split; [simpl; lia|intros x []]].
  - destruct it as [|m0 [|m1 tl]]; simpl.
    + exists []. rewrite app_nil_r.
      split; [reflexivity|split; [simpl; lia|intros x []]].
    + exists []. rewrite app_nil_r.
      split; [reflexivity|split; [simpl; lia|intros x []]].
    + destruct (ratio_accepts m0 m1).
      * destruct (IH (matches ++ [m0])) as [pr [E [Hlen Hin]]].
        exists (m0 :: pr). rewrite E, <- app_assoc. simpl.
        split; [reflexivity|]. split; [simpl; lia|]. intros x [<-|Hx].
        -- exists (m0 :: m1 :: tl). split; [now left|reflexivity].
        -- destruct (Hin x Hx) as [it [Hit Hn]]. exists it.
           split; [now right|exact Hn].
      * destruct (IH matches) as [pr [E [Hlen Hin]]].
        exists pr. rewrite E.
        split; [reflexivity|]. split; [simpl; lia|]. intros x Hx.
        destruct (Hin x Hx) as [it [Hit Hn]]. exists it.
        split; [now right|exact Hn].
Qed.

Lemma ratio_test_fault_cases (knn : list (list DMatch))
      (matches : list DMatch) :
  (snd (ratio_test knn matches) = Some IndexOutOfRange
   /\ Exists (fun it => (length it < 2)%nat) knn)
  \/ (snd (ratio_test knn matches) = None
      /\ Forall (fun it => (2 <= length it)%nat) knn).
Proof.
  revert matches. induction knn as [|it knn IH]; intros matches; simpl.
  - right. split; [reflexivity|constructor].
  - destruct it as [|m0 [|m1 tl]]; simpl.
    + left. split; [reflexivity|]. apply Exists_cons_hd. simpl. lia.
    + left. split; [reflexivity|]. apply Exists_cons_hd. simpl. lia.
    + assert (H2 : (2 <= length (m0 :: m1 :: tl))%nat) by (simpl; lia).
      destruct (ratio_accepts m0 m1).
      * destruct (IH (matches ++ [m0])) as [[E H]|[E H]].
        -- left. split; [exact E|now apply Exists_cons_tl].
        -- right. split; [exact E|now constructor].
      * destruct (IH matches) as [[E H]|[E H]].
        -- left. split; [exact E|now apply Exists_cons_tl].
        -- right. split; [exact E|now constructor].
Qed.

Lemma Exists_short_not_Forall_long (knn : list (list DMatch)) :
  Exists (fun it => (length it < 2)%nat) knn ->
  Forall (fun it => (2 <= length it)%nat) knn -> False.
Proof.
  intros He Hf. rewrite Exists_exists in He. rewrite Forall_forall in Hf.
  destruct He as [it [Hin Hlt]]. specialize (Hf it Hin). lia.
Qed.

Lemma ratio_test_fault_iff (knn : list (list DMatch)) (matches : list DMatch) :
  snd (ratio_test knn matches) = Some IndexOutOfRange
  <-> Exists (fun it => (length it < 2)%nat) knn.
Proof.
  destruct (ratio_test_fault_cases knn matches) as [[E H]|[E H]].
  - split; auto.
  - split; [congruence|].
    intros He. exfalso. exact (Exists_short_not_Forall_long knn He H).
Qed.

(** ** The configuration step *)

Section MatchingProperties.

Variable BFMatcher_create : NormType -> bool -> DescriptorMatcher.
Variable FlannBasedMatcher_create : DescriptorMatcher.
Variable convertTo : Mat -> MatDepth -> Mat.

Local Notation "'configure'" :=
  (configure_matcher BFMatcher_create FlannBasedMatcher_create convertTo).
Local Notation "'run'" :=
  (matchDescriptors BFMatcher_create FlannBasedMatcher_create convertTo).

Lemma matchDescriptors_matrices descSource descRef matches dT mT sT :
  (descSource_after (run descSource descRef matches dT mT sT),
   descRef_after (run descSource descRef matches dT mT sT))
  = (snd (fst (configure descSource descRef dT mT)),
     snd (configure descSource descRef dT mT)).
Proof.
  unfold matchDescriptors.
  destruct (configure descSource descRef dT mT) as [[m s] r]; simpl.
  destruct (sT =? "SEL_NN")%string.
  - now destruct m.
  - destruct (sT =? "SEL_KNN")%string; [|reflexivity].
    destruct m; [|reflexivity].
    now destruct (ratio_test _ _).
Qed.

Lemma matchDescriptors_knn descSource descRef matches dT mT m s r :
  configure descSource descRef dT mT = (Some m, s, r) ->
  matches_after (run descSource descRef matches dT mT "SEL_KNN")
  = fst (ratio_test (dm_knnMatch m s r 2) matches)
  /\ fault (run descSource descRef matches dT mT "SEL_KNN")
     = snd (ratio_test (dm_knnMatch m s r 2) matches).
Proof.
  intros E. unfold matchDescriptors. rewrite E. simpl.
  now destruct (ratio_test _ _).
Qed.

Lemma matchDescriptors_nn descSource descRef matches dT mT m s r :
  configure descSource descRef dT mT = (Some m, s, r) ->
  matches_after (run descSource descRef matches dT mT "SEL_NN")
  = dm_match m s r
  /\ fault (run descSource descRef matches dT mT "SEL_NN") = None.
Proof.
  intros E. unfold matchDescriptors. rewrite E. simpl. now split.
Qed.

Lemma configure_matrices descSource descRef dT mT m s r :
  configure descSource descRef dT mT = (m, s, r) ->
  (s = descSource /\ r = descRef)
  \/ (s = convertTo descSource CV_32F /\ r = convertTo descRef CV_32F).
Proof.
  unfold configure_matcher.
  destruct (mT =? "MAT_BF")%string.
  - intros [= _ <- <-]. now left.
  - destruct (mT =? "MAT_FLANN")%string.
    + destruct (_ || _); intros [= _ <- <-]; [now right|now left].
    + intros [= _ <- <-]. now left.
Qed.

Lemma configure_some_iff descSource descRef dT mT :
  (exists m, fst (fst (configure descSource descRef dT mT)) = Some m)
  <-> (mT = "MAT_BF"%string \/ mT = "MAT_FLANN"%string).
Proof.
  unfold configure_matcher.
  destruct (mT =? "MAT_BF")%string eqn:Eb.
  - apply String.eqb_eq in Eb. simpl. split; eauto.
  - destruct (mT =? "MAT_FLANN")%string eqn:Ef.
    + apply String.eqb_eq in Ef.
      destruct (_ || _); simpl; split; eauto.
    + apply String.eqb_neq in Eb. apply String.eqb_neq in Ef. simpl.
      split; [intros [m H]; discriminate|intros [H|H]; contradiction].
Qed.

End MatchingProperties.

(** ** Claims on the descriptor matcher *)

(** C3: with the SEL_KNN selector [matchDescriptors] asks the matcher for
    the 2 nearest reference descriptors of every source descriptor and, when
    every neighbour list holds them, appends the best neighbour of a list
    exactly when its distance is strictly below 0.8 times the distance of
    the second; a list that fails the strict inequality contributes
    nothing.  Distances 10 and 20 pass (10 < 16); distances 15 and 17 do
    not (15 >= 13.6). *)
Theorem knn_ratio_test_filter :
  forall (BFMatcher_create : NormType -> bool -> DescriptorMatcher)
         (FlannBasedMatcher_create : DescriptorMatcher)
         (convertTo : Mat -> MatDepth -> Mat)
         (descSource descRef : Mat) (matches : list DMatch)
         (descriptorType matcherType : string)
         (m : DescriptorMatcher) (s r : Mat),
    configure_matcher BFMatcher_create FlannBasedMatcher_create convertTo
                      descSource descRef descriptorType matcherType
    = (Some m, s, r) ->
    Forall (fun it => (2 <= length it)%nat) (dm_knnMatch m s r 2) ->
    let out :=
      matchDescriptors BFMatcher_create FlannBasedMatcher_create convertTo
                       descSource descRef matches
                       descriptorType matcherType "SEL_KNN" in
    fault out = None
    /\ matches_after out
       = matches ++
         flat_map (fun it =>
                     match it with
                     | best :: second :: _ =>
                         if ratio_accepts best second then [best] else []
                     | _ => []
                     end)
                  (dm_knnMatch m s r 2)
    /\ (forall best second,
           ratio_accepts best second = true
           <-> distance best < (8 # 10) * distance second)
    /\ (forall best second,
           distance best == 10 -> distance second == 20 ->
           ratio_accepts best second = true)
    /\ (forall best second,
           distance best == 15 -> distance second == 17 ->
           ratio_accepts best second = false).
Proof.
  intros BF FL conv descSource descRef matches dT mT m s r Hc Hall out.
  destruct (matchDescriptors_knn BF FL conv descSource descRef matches
                                 dT mT m s r Hc) as [Em Ef].
  fold out in Em, Ef.
  rewrite (ratio_test_complete _ matches Hall) in Em, Ef. simpl in Em, Ef.
  split; [exact Ef|]. split; [exact Em|].
  split; [intros; apply ratio_accepts_iff|]. split.
  - intros best second Hb Hs. apply ratio_accepts_iff.
    rewrite Hb, Hs. reflexivity.
  - intros best second Hb Hs.
    destruct (ratio_accepts best second) eqn:E; [|reflexivity].
    apply ratio_accepts_iff in E. rewrite Hb, Hs in E.
    vm_compute in E. discriminate.
Qed.

Lemma knn_ratio_test_filter_witness :
  let out :=
    matchDescriptors (fun _ _ => exhaustive_matcher) exhaustive_matcher
                     convertTo_exact desc_32f_source desc_32f_ref []
                     "DES_HOG" "MAT_BF" "SEL_KNN" in
  fault out = None
  /\ matches_after out = [mkDMatch 0 0 0 1; mkDMatch 1 2 0 1].
Proof.
  intros out.
  assert (Hall : Forall (fun it => (2 <= length it)%nat)
                        (dm_knnMatch exhaustive_matcher
                                     desc_32f_source desc_32f_ref 2)).
  { vm_compute. repeat constructor. }
  destruct (knn_ratio_test_filter
              (fun _ _ => exhaustive_matcher) exhaustive_matcher
              convertTo_exact desc_32f_source desc_32f_ref []
              "DES_HOG" "MAT_BF" exhaustive_matcher
              desc_32f_source desc_32f_ref eq_refl Hall)
    as [Hf [Hm _]].
  subst out. split; [exact Hf|]. rewrite Hm. vm_compute. reflexivity.
Defined.

(** C5: for either matcher kind (MAT_BF, MAT_FLANN), when the matcher
    returns one match per source descriptor for SEL_NN and one neighbour
    list per source descriptor for SEL_KNN, the matches the SEL_KNN run
    appends are no more than the matches the SEL_NN run returns on the same
    inputs; each appended match is the best entry of a neighbour list: the
    ratio test rejects and never adds. *)
Theorem knn_matches_at_most_nn :
  forall (BFMatcher_create : NormType -> bool -> DescriptorMatcher)
         (FlannBasedMatcher_create : DescriptorMatcher)
         (convertTo : Mat -> MatDepth -> Mat)
         (descSource descRef : Mat) (matches : list DMatch)
         (descriptorType matcherType : string),
    (matcherType = "MAT_BF"%string \/ matcherType = "MAT_FLANN"%string) ->
    exists (m : DescriptorMatcher) (s r : Mat),
      configure_matcher BFMatcher_create FlannBasedMatcher_create convertTo
                        descSource descRef descriptorType matcherType
      = (Some m, s, r)
      /\ (length (dm_match m s r) = mat_rows s ->
          length (dm_knnMatch m s r 2) = mat_rows s ->
          exists produced,
            matches_after
              (matchDescriptors BFMatcher_create FlannBasedMatcher_create
                                convertTo descSource descRef matches
                                descriptorType matcherType "SEL_KNN")
            = matches ++ produced
            /\ (length produced
                <= length
                     (matches_after
                        (matchDescriptors
                           BFMatcher_create FlannBasedMatcher_create
                           convertTo descSource descRef matches
                           descriptorType matcherType "SEL_NN")))%nat
            /\ forall x, In x produced ->
                         exists it, In it (dm_knnMatch m s r 2)
                                    /\ nth_error it 0 = Some x).
Proof.
  intros BF FL conv descSource descRef matches dT mT HmT.
  apply (configure_some_iff BF FL conv descSource descRef dT) in HmT.
  destruct HmT as [m Hm].
  destruct (configure_matcher BF FL conv descSource descRef dT mT)
    as [[m' s] r] eqn:Hc.
  simpl in Hm. subst m'. exists m, s, r. split; [reflexivity|].
  intros Hnn Hknn.
  destruct (matchDescriptors_knn BF FL conv descSource descRef matches
                                 dT mT m s r Hc) as [Ek _].
  destruct (matchDescriptors_nn BF FL conv descSource descRef matches
                                dT mT m s r Hc) as [En _].
  destruct (ratio_test_appends (dm_knnMatch m s r 2) matches)
    as [produced [E [Hlen Hin]]].
  exists produced. rewrite Ek, En, E.
  split; [reflexivity|]. split; [lia|exact Hin].
Qed.

Lemma knn_matches_at_most_nn_witness :
  exists produced,
    matches_after
      (matchDescriptors (fun _ _ => exhaustive_matcher) exhaustive_matcher
                        convertTo_exact desc_8u_source desc_8u_ref []
                        "DES_BINARY" "MAT_FLANN" "SEL_KNN")
    = [] ++ produced
    /\ (length produced <= 2)%nat.
Proof.
  destruct (knn_matches_at_most_nn
              (fun _ _ => exhaustive_matcher) exhaustive_matcher
              convertTo_exact desc_8u_source desc_8u_ref []
              "DES_BINARY" "MAT_FLANN" (or_intror eq_refl))
    as [m [s [r [Hc H]]]].
  injection Hc as <- <- <-.
  destruct (H eq_refl eq_refl) as [produced [E [Hlen _]]].
  exists produced. split; [exact E|exact Hlen].
Defined.

(** C8 (as stated, refuted): with MAT_FLANN and 8-bit descriptors the
    caller's two matrices are converted in place; after the call they are
    of type CV_32F and differ from the matrices passed in. *)
Lemma flann_converts_callers_descriptors :
  let out :=
    matchDescriptors (fun _ _ => exhaustive_matcher) exhaustive_matcher
                     convertTo_exact desc_8u_source desc_8u_ref []
                     "DES_BINARY" "MAT_FLANN" "SEL_NN" in
  mat_type desc_8u_source = CV_8U
  /\ mat_type (descSource_after out) = CV_32F
  /\ mat_type (descRef_after out) = CV_32F
  /\ descSource_after out <> desc_8u_source
  /\ descRef_after out <> desc_8u_ref.
Proof.
  repeat split; try (vm_compute; reflexivity); vm_compute; discriminate.
Qed.

(** C8 (amended): [matchDescriptors] leaves the caller's two descriptor
    matrices as they were for every matcher type other than MAT_FLANN, and
    for MAT_FLANN when both are already of type CV_32F; with MAT_FLANN and a
    matrix of another type, both matrices of the caller are replaced by
    their conversion to CV_32F, whatever the selector. *)
Theorem matchDescriptors_descriptor_frame :
  forall (BFMatcher_create : NormType -> bool -> DescriptorMatcher)
         (FlannBasedMatcher_create : DescriptorMatcher)
         (convertTo : Mat -> MatDepth -> Mat)
         (descSource descRef : Mat) (matches : list DMatch)
         (descriptorType matcherType selectorType : string),
    let out :=
      matchDescriptors BFMatcher_create FlannBasedMatcher_create convertTo
                       descSource descRef matches
                       descriptorType matcherType selectorType in
    (matcherType <> "MAT_FLANN"%string ->
     descSource_after out = descSource /\ descRef_after out = descRef)
    /\ (matcherType = "MAT_FLANN"%string ->
        mat_type descSource = CV_32F -> mat_type descRef = CV_32F ->
        descSource_after out = descSource /\ descRef_after out = descRef)
    /\ (matcherType = "MAT_FLANN"%string ->
        (mat_type descSource <> CV_32F \/ mat_type descRef <> CV_32F) ->
        descSource_after out = convertTo descSource CV_32F
        /\ descRef_after out = convertTo descRef CV_32F).
Proof.
  intros BF FL conv descSource descRef matches dT mT sT out.
  assert (H := matchDescriptors_matrices BF FL conv descSource descRef
                                         matches dT mT sT).
  fold out in H. injection H as H1 H2. rewrite H1, H2. clear H1 H2 out.
  unfold configure_matcher. split; [|split].
  - intros Hne. apply String.eqb_neq in Hne. rewrite Hne.
    now destruct (mT =? "MAT_BF")%string.
  - intros -> Es Er. rewrite Es, Er. simpl. now split.
  - intros -> Hty. simpl.
    assert (E : negb (MatDepth_eqb (mat_type descSource) CV_32F)
                || negb (MatDepth_eqb (mat_type descRef) CV_32F) = true).
    { destruct Hty as [Hty|Hty].
      - destruct (mat_type descSource); try congruence; reflexivity.
      - destruct (mat_type descRef); try congruence;
          simpl; rewrite ?orb_true_r; reflexivity. }
    rewrite E. now split.
Qed.

Lemma matchDescriptors_descriptor_frame_witness :
  let out :=
    matchDescriptors (fun _ _ => exhaustive_matcher) exhaustive_matcher
                     convertTo_exact desc_8u_source desc_8u_ref []
                     "DES_BINARY" "MAT_BF" "SEL_NN" in
  descSource_after out = desc_8u_source /\ descRef_after out = desc_8u_ref.
Proof.
  intros out.
  refine (proj1 (matchDescriptors_descriptor_frame
                   (fun _ _ => exhaustive_matcher) exhaustive_matcher
                   convertTo_exact desc_8u_source desc_8u_ref []
                   "DES_BINARY" "MAT_BF" "SEL_NN") _).
  discriminate.
Defined.

(** C9: the ratio-test loop reads entry 1 of every neighbour list, so it
    runs into an out-of-range read exactly when some list holds fewer than
    two entries.  For either matcher kind, when the matcher returns one
    neighbour list per source descriptor and no list holds more entries
    than there are reference descriptors, a call with a non-empty source
    set and fewer than two reference descriptors ends in that out-of-range
    read. *)
Theorem knn_second_neighbour_out_of_range :
  (forall knn matches,
      snd (ratio_test knn matches) = Some IndexOutOfRange
      <-> Exists (fun it => (length it < 2)%nat) knn)
  /\ forall (BFMatcher_create : NormType -> bool -> DescriptorMatcher)
            (FlannBasedMatcher_create : DescriptorMatcher)
            (convertTo : Mat -> MatDepth -> Mat)
            (descSource descRef : Mat) (matches : list DMatch)
            (descriptorType matcherType : string)
            (m : DescriptorMatcher) (s r : Mat),
      configure_matcher BFMatcher_create FlannBasedMatcher_create convertTo
                        descSource descRef descriptorType matcherType
      = (Some m, s, r) ->
      length (dm_knnMatch m s r 2) = mat_rows s ->
      Forall (fun it => (length it <= mat_rows r)%nat)
             (dm_knnMatch m s r 2) ->
      (0 < mat_rows s)%nat ->
      (mat_rows r < 2)%nat ->
      fault (matchDescriptors BFMatcher_create FlannBasedMatcher_create
                              convertTo descSource descRef matches
                              descriptorType matcherType "SEL_KNN")
      = Some IndexOutOfRange.
Proof.
  split; [intros; apply ratio_test_fault_iff|].
  intros BF FL conv descSource descRef matches dT mT m s r
         Hc Hlen Hall Hs Hr.
  destruct (matchDescriptors_knn BF FL conv descSource descRef matches
                                 dT mT m s r Hc) as [_ Ef].
  rewrite Ef. apply ratio_test_fault_iff.
  destruct (dm_knnMatch m s r 2) as [|it knn]; simpl in Hlen; [lia|].
  apply Exists_cons_hd. inversion Hall; subst. lia.
Qed.

Lemma knn_second_neighbour_out_of_range_witness :
  fault (matchDescriptors (fun _ _ => exhaustive_matcher) exhaustive_matcher
                          convertTo_exact desc_32f_source desc_one_ref []
                          "DES_HOG" "MAT_BF" "SEL_KNN")
  = Some IndexOutOfRange.
Proof.
  refine (proj2 knn_second_neighbour_out_of_range
                (fun _ _ => exhaustive_matcher) exhaustive_matcher
                convertTo_exact desc_32f_source desc_one_ref []
                "DES_HOG"%string "MAT_BF"%string exhaustive_matcher
                desc_32f_source desc_one_ref eq_refl eq_refl _ _ _).
  - vm_compute. repeat constructor.
  - vm_compute. lia.
  - vm_compute. lia.
Defined.

(** ** Claims on the dispatch *)

Lemma descKeypoints_branch_else (s : string) :
  s <> "BRISK"%string -> s <> "ORB"%string -> s <> "AKAZE"%string ->
  s <> "FREAK"%string -> s <> "SIFT"%string ->
  descKeypoints_branch s = Desc_else.
Proof.
  intros H1 H2 H3 H4 H5. unfold descKeypoints_branch.
  apply String.eqb_neq in H1, H2, H3, H4, H5.
  now rewrite H1, H2, H3, H4, H5.
Qed.

Lemma detKeypointsModern_branch_else (s : string) :
  s <> "FAST"%string -> s <> "BRISK"%string -> s <> "ORB"%string ->
  s <> "AKAZE"%string -> s <> "FREAK"%string -> s <> "SIFT"%string ->
  detKeypointsModern_branch s = Det_else.
Proof.
  intros H0 H1 H2 H3 H4 H5. unfold detKeypointsModern_branch.
  apply not_eq_sym in H0, H1, H2, H3, H4, H5.
  apply String.eqb_neq in H0, H1, H2, H3, H4, H5.
  now rewrite H0, H1, H2, H3, H4, H5.
Qed.

(** C7 (evaluation of the code where the claim fails): for every type
    string that the dispatch of [descKeypoints] or of [detKeypointsModern]
    does not name, the chain ends in its final do-nothing [else] arm with
    the handle unset and no error raised, and the call then invokes the
    library method through the unset handle: it ends in a null dereference
    (lines 88 and 231), which is neither an error raised by the library
    nor a returned result, empty or not.  The FREAK and SIFT arms, whose
    creations are commented out, end in the same way. *)
Theorem unsupported_type_leaves_handle_unset :
  forall (compute : Feature2D -> Mat -> list KeyPoint -> list KeyPoint * Mat)
         (detect : Feature2D -> Mat -> list KeyPoint)
         (keypoints : list KeyPoint) (img descriptors : Mat) (s : string),
    (s <> "BRISK"%string -> s <> "ORB"%string -> s <> "AKAZE"%string ->
     s <> "FREAK"%string -> s <> "SIFT"%string ->
     descKeypoints_branch s = Desc_else
     /\ descKeypoints_extractor (descKeypoints_branch s) = None
     /\ descKeypoints compute keypoints img descriptors s
        = Faulted NullPointerDereference)
    /\ (s <> "FAST"%string -> s <> "BRISK"%string -> s <> "ORB"%string ->
        s <> "AKAZE"%string -> s <> "FREAK"%string -> s <> "SIFT"%string ->
        detKeypointsModern_branch s = Det_else
        /\ detKeypointsModern_detector (detKeypointsModern_branch s) = None
        /\ detKeypointsModern detect keypoints img s
           = Faulted NullPointerDereference)
    /\ (descKeypoints_extractor (descKeypoints_branch s) = None
        <-> descKeypoints compute keypoints img descriptors s
            = Faulted NullPointerDereference)
    /\ (detKeypointsModern_detector (detKeypointsModern_branch s) = None
        <-> detKeypointsModern detect keypoints img s
            = Faulted NullPointerDereference)
    /\ descKeypoints compute keypoints img descriptors "FREAK"
       = Faulted NullPointerDereference
    /\ descKeypoints compute keypoints img descriptors "SIFT"
       = Faulted NullPointerDereference
    /\ detKeypointsModern detect keypoints img "FREAK"
       = Faulted NullPointerDereference
    /\ detKeypointsModern detect keypoints img "SIFT"
       = Faulted NullPointerDereference.
Proof.
  intros compute detect keypoints img descriptors s.
  split; [|split; [|split; [|split]]].
  - intros H1 H2 H3 H4 H5. unfold descKeypoints.
    rewrite (descKeypoints_branch_else s H1 H2 H3 H4 H5). now repeat split.
  - intros H0 H1 H2 H3 H4 H5. unfold detKeypointsModern.
    rewrite (detKeypointsModern_branch_else s H0 H1 H2 H3 H4 H5).
    now repeat split.
  - unfold descKeypoints.
    destruct (descKeypoints_extractor (descKeypoints_branch s));
      split; intros; congruence.
  - unfold detKeypointsModern.
    destruct (detKeypointsModern_detector (detKeypointsModern_branch s));
      split; intros; congruence.
  - repeat split.
Qed.

Lemma unsupported_type_leaves_handle_unset_witness :
  descKeypoints (fun _ _ kps => (kps, mkMat CV_8U [])) [] (mkMat CV_8U [])
                (mkMat CV_8U []) "SURF"
  = Faulted NullPointerDereference
  /\ detKeypointsModern (fun _ _ => []) [] (mkMat CV_8U []) "HARRIS"
     = Faulted NullPointerDereference.
Proof.
  pose proof (unsupported_type_leaves_handle_unset
                (fun _ _ kps => (kps, mkMat CV_8U [])) (fun _ _ => [])
                [] (mkMat CV_8U []) (mkMat CV_8U [])) as H.
  split.
  - refine (proj2 (proj2 (proj1 (H "SURF"%string) _ _ _ _ _)));
      discriminate.
  - refine (proj2 (proj2 (proj1 (proj2 (H "HARRIS"%string)) _ _ _ _ _ _)));
      discriminate.
Defined.

(** ** Further properties of the suppression *)

Section HarrisFurther.

Variable overlap : KeyPoint -> KeyPoint -> Q.
Variable maxOverlap : Q.

Local Notation "'walk'" := (nms_walk overlap maxOverlap).
Local Notation "'step'" := (nms_step overlap maxOverlap).
Local Notation "'ovl'" := (overlapping overlap maxOverlap).

Lemma nms_walk_in c kps x :
  In x (snd (walk c kps)) -> In x kps \/ x = c.
Proof.
  induction kps as [|it rest IH]; simpl; [tauto|].
  destruct (Qgtb (overlap c it) maxOverlap).
  - destruct (Qgtb (response c) (response it)); simpl.
    + intros [<-|H]; auto.
    + destruct (walk c rest); simpl in *. intros [<-|H]; auto.
      destruct (IH H); auto.
  - destruct (walk c rest); simpl in *. intros [<-|H]; auto.
    destruct (IH H); auto.
Qed.

Lemma nms_step_in kps c x : In x (step kps c) -> In x kps \/ x = c.
Proof.
  rewrite nms_step_unfold. destruct (fst (walk c kps)).
  - apply nms_walk_in.
  - intros H. apply in_app_or in H. destruct H as [H|[<-|[]]]; auto.
    now apply nms_walk_in.
Qed.

Lemma fold_step_in l kps x :
  In x (fold_left step l kps) -> In x kps \/ In x l.
Proof.
  revert kps. induction l as [|c l IH]; intros kps H; simpl in *; auto.
  destruct (IH _ H) as [H1|H1]; auto.
  destruct (nms_step_in _ _ _ H1) as [H2| ->]; auto.
Qed.

Lemma nms_step_length_ub kps c :
  (length (step kps c) <= S (length kps))%nat.
Proof.
  rewrite nms_step_unfold. destruct (fst (walk c kps)).
  - rewrite nms_walk_length. lia.
  - rewrite length_app, nms_walk_length. simpl. lia.
Qed.

Lemma fold_step_length_ub l kps :
  (length (fold_left step l kps) <= length kps + length l)%nat.
Proof.
  revert kps. induction l as [|c l IH]; intros kps; simpl; [lia|].
  specialize (IH (step kps c)).
  pose proof (nms_step_length_ub kps c). lia.
Qed.

(** A candidate that beats some incumbent ends up in the vector. *)
Lemma nms_walk_in_beaten c kps :
  (exists k, In k kps /\ ovl c k /\ response k < response c) ->
  In c (snd (walk c kps)).
Proof.
  induction kps as [|it rest IH]; intros [k [Hin [Hov Hr]]];
    [contradiction|].
  simpl. destruct (Qgtb (overlap c it) maxOverlap) eqn:Eo.
  - destruct (Qgtb (response c) (response it)) eqn:Er; simpl; [now left|].
    destruct (walk c rest) eqn:Ew; simpl in *. right. apply IH.
    destruct Hin as [<-|Hin]; [|eauto].
    apply Qgtb_true_iff in Hr. congruence.
  - destruct (walk c rest) eqn:Ew; simpl in *. right. apply IH.
    destruct Hin as [<-|Hin]; [|eauto].
    apply Qgtb_true_iff in Hov. congruence.
Qed.

Lemma nms_step_in_strongest kps c :
  (forall k, In k kps -> response k < response c) -> In c (step kps c).
Proof.
  intros H. rewrite nms_step_unfold.
  destruct (fst (walk c kps)) eqn:E.
  - apply nms_walk_flag_true in E. destruct E as [k [Hin Hov]].
    apply nms_walk_in_beaten. exists k. auto.
  - apply in_or_app. right. now left.
Qed.

(** A keypoint that no later candidate exceeds in response stays. *)
Lemma fold_step_keeps l kps c :
  In c kps ->
  (forall d, In d l -> ~ response c < response d) ->
  In c (fold_left step l kps).
Proof.
  intros Hin. apply In_nth_error in Hin. destruct Hin as [p Hp].
  revert kps Hp. induction l as [|d l IH]; intros kps Hp Hl; simpl.
  - eapply nth_error_In; eauto.
  - destruct (nms_step_nth overlap maxOverlap kps d p c Hp)
      as [H|[_ [_ H]]].
    + apply IH; [exact H|]. intros e He. apply Hl. now right.
    + exfalso. apply (Hl d); [now left|exact H].
Qed.

(** The response held at a position never goes down. *)
Lemma fold_step_response_le l kps p k :
  nth_error kps p = Some k ->
  exists k', nth_error (fold_left step l kps) p = Some k'
             /\ response k <= response k'.
Proof.
  revert kps k. induction l as [|c l IH]; intros kps k Hp; simpl.
  - exists k. split; [exact Hp|apply Qle_refl].
  - destruct (nms_step_nth overlap maxOverlap kps c p k Hp)
      as [H|[H [_ Hr]]].
    + now apply IH.
    + destruct (IH _ _ H) as [k' [Hk' Hle]]. exists k'.
      split; [exact Hk'|].
      eapply Qle_trans; [apply Qlt_le_weak; exact Hr|exact Hle].
Qed.

(** Right after its step a candidate is in the vector, or the vector is
    unchanged and holds a keypoint it overlaps, none of them weaker. *)
Lemma nms_step_cover kps c :
  In c (step kps c)
  \/ (step kps c = kps
      /\ (exists k, In k kps /\ ovl c k)
      /\ forall k, In k kps -> ovl c k -> ~ response k < response c).
Proof.
  destruct (fst (walk c kps)) eqn:E.
  - assert (Hex := E). apply nms_walk_flag_true in Hex.
    assert (Hdec : (exists k, In k kps /\ ovl c k /\ response k < response c)
                   \/ forall k, In k kps -> ovl c k ->
                                ~ response k < response c).
    { clear E Hex. induction kps as [|it rest IH].
      - right. intros k [].
      - destruct IH as [[k [Hin H]]|IH].
        + left. exists k. split; [now right|exact H].
        + destruct (Qgtb (overlap c it) maxOverlap) eqn:Eo.
          * destruct (Qgtb (response c) (response it)) eqn:Er.
            -- left. exists it. split; [now left|].
               split; apply Qgtb_true_iff; assumption.
            -- right. intros k [<-|Hin] Hov; [|now apply IH].
               now apply Qgtb_false_iff.
          * right. intros k [<-|Hin] Hov; [|now apply IH].
            apply Qgtb_true_iff in Hov. congruence. }
    destruct Hdec as [Hb|Hn].
    + left. rewrite nms_step_unfold, E. now apply nms_walk_in_beaten.
    + right. split; [|split; [exact Hex|exact Hn]].
      rewrite nms_step_unfold, E. apply nms_walk_keep.
      intros x Hx [Hov Hr]. exact (Hn x Hx Hov Hr).
  - left. rewrite nms_step_unfold, E. apply in_or_app. right. now left.
Qed.

End HarrisFurther.

(** ** Further properties of the candidates *)

Lemma flat_map_length_le {A B} (f : A -> list B) (n : nat) (l : list A) :
  (forall x, In x l -> (length (f x) <= n)%nat) ->
  (length (flat_map f l) <= length l * n)%nat.
Proof.
  induction l as [|a l IH]; intros H; simpl; [lia|].
  rewrite length_app.
  assert (length (f a) <= n)%nat by (apply H; now left).
  assert (length (flat_map f l) <= length l * n)%nat
    by (apply IH; intros x Hx; apply H; now right).
  lia.
Qed.

Lemma candidates_length_le (minResponse apertureSize : Z) (dst_norm : Mat) :
  (length (candidates minResponse apertureSize dst_norm)
   <= mat_rows dst_norm * mat_cols dst_norm)%nat.
Proof.
  unfold candidates.
  etransitivity; [apply (flat_map_length_le _ (mat_cols dst_norm))|].
  - intros i _. unfold row_candidates.
    etransitivity; [apply (flat_map_length_le _ 1)|].
    + intros j _.
      destruct (int_of_float (mat_at dst_norm i j) >? minResponse)%Z;
        simpl; lia.
    + rewrite length_seq. lia.
  - rewrite length_seq. lia.
Qed.

(** Truncation and a non-negative integer threshold. *)
Lemma int_of_float_gt_iff (x : Q) (T : Z) :
  (0 <= T)%Z ->
  ((T < int_of_float x)%Z <-> inject_Z (T + 1) <= x).
Proof.
  intros HT. destruct x as [n d]. unfold int_of_float, Qle, inject_Z.
  simpl. rewrite Z.mul_1_r.
  pose proof (Pos2Z.is_pos d) as Hd.
  split; intros H; Z.to_euclidean_division_equations; nia.
Qed.

(** Sortedness of a concatenation of blocks indexed by a range. *)
Lemma StronglySorted_app_cross {A} (R : A -> A -> Prop) (l1 l2 : list A) :
  StronglySorted R l1 -> StronglySorted R l2 ->
  (forall a b, In a l1 -> In b l2 -> R a b) ->
  StronglySorted R (l1 ++ l2).
Proof.
  induction 1 as [|a l1 Hs IH Ha]; intros H2 Hc; simpl; [exact H2|].
  constructor.
  - apply IH; [exact H2|]. intros x y Hx Hy. apply Hc; [now right|exact Hy].
  - apply Forall_app. split; [exact Ha|].
    apply Forall_forall. intros y Hy. apply Hc; [now left|exact Hy].
Qed.

Lemma StronglySorted_flat_map_seq {A} (R : A -> A -> Prop)
      (f : nat -> list A) :
  (forall i, StronglySorted R (f i)) ->
  (forall i j a b, (i < j)%nat -> In a (f i) -> In b (f j) -> R a b) ->
  forall s n, StronglySorted R (flat_map f (seq s n)).
Proof.
  intros Hs Hc s n. revert s.
  induction n as [|n IH]; intros s; simpl; [constructor|].
  apply StronglySorted_app_cross; [apply Hs|apply IH|].
  intros a b Ha Hb. apply in_flat_map in Hb. destruct Hb as [j [Hj Hb]].
  apply in_seq in Hj. apply (Hc s j); [lia|exact Ha|exact Hb].
Qed.

Lemma StronglySorted_NoDup {A} (R : A -> A -> Prop) (l : list A) :
  (forall x, ~ R x x) -> StronglySorted R l -> NoDup l.
Proof.
  intros Hirr. induction 1 as [|a l Hs IH Ha]; constructor; [|exact IH].
  intros Hin. rewrite Forall_forall in Ha. exact (Hirr a (Ha a Hin)).
Qed.

(** ** Further properties of the Harris extraction *)

(** X1: the scan invents nothing: every keypoint of the vector after the
    scan was supplied by the caller or is the keypoint built at a pixel of
    the map whose truncated response strictly exceeds the threshold (x the
    column, y the row, size 2 x apertureSize, response the truncated
    value). *)
Theorem harris_returns_supplied_or_candidates :
  forall (overlap : KeyPoint -> KeyPoint -> Q) (maxOverlap : Q)
         (minResponse apertureSize : Z) (dst_norm : Mat)
         (keypoints : list KeyPoint) (x : KeyPoint),
    In x (harris_loop overlap maxOverlap minResponse apertureSize
                      dst_norm keypoints) ->
    In x keypoints
    \/ exists i j,
        (i < mat_rows dst_norm)%nat /\ (j < mat_cols dst_norm)%nat /\
        (minResponse < int_of_float (mat_at dst_norm i j))%Z /\
        x = mkKeyPoint (inject_Z (Z.of_nat j)) (inject_Z (Z.of_nat i))
                       (inject_Z (2 * apertureSize)) (-1)
                       (inject_Z (int_of_float (mat_at dst_norm i j)))
                       0%Z (-1)%Z.
Proof.
  intros overlap maxOverlap minResponse apertureSize dst_norm keypoints x H.
  rewrite harris_loop_fold in H. apply fold_step_in in H.
  destruct H as [H|H]; [now left|right]. now apply in_candidates.
Qed.

Lemma harris_returns_supplied_or_candidates_witness :
  In (harris_kp 4 3 255) []
  \/ exists i j,
      (i < mat_rows map_two_then_between)%nat
      /\ (j < mat_cols map_two_then_between)%nat
      /\ (120 < int_of_float (mat_at map_two_then_between i j))%Z
      /\ harris_kp 4 3 255
         = mkKeyPoint (inject_Z (Z.of_nat j)) (inject_Z (Z.of_nat i))
                      (inject_Z (2 * 3)) (-1)
                      (inject_Z (int_of_float
                                   (mat_at map_two_then_between i j)))
                      0%Z (-1)%Z.
Proof.
  apply (harris_returns_supplied_or_candidates overlap_sign 0 120 3
           map_two_then_between [] (harris_kp 4 3 255)).
  vm_compute. now left.
Defined.

(** X2: the scan appends at most one keypoint per candidate: the vector
    grows by no more than the number of candidates, hence by no more than
    the number of pixels, and it never shrinks. *)
Theorem harris_result_length_bounds :
  forall (overlap : KeyPoint -> KeyPoint -> Q) (maxOverlap : Q)
         (minResponse apertureSize : Z) (dst_norm : Mat)
         (keypoints : list KeyPoint),
    let result := harris_loop overlap maxOverlap minResponse apertureSize
                              dst_norm keypoints in
    (length keypoints <= length result)%nat
    /\ (length result
        <= length keypoints
           + length (candidates minResponse apertureSize dst_norm))%nat
    /\ (length result
        <= length keypoints + mat_rows dst_norm * mat_cols dst_norm)%nat.
Proof.
  intros overlap maxOverlap minResponse apertureSize dst_norm keypoints
         result.
  subst result. rewrite harris_loop_fold.
  pose proof (fold_step_length_le overlap maxOverlap
                (candidates minResponse apertureSize dst_norm) keypoints).
  pose proof (fold_step_length_ub overlap maxOverlap
                (candidates minResponse apertureSize dst_norm) keypoints).
  pose proof (candidates_length_le minResponse apertureSize dst_norm).
  repeat split; lia.
Qed.

(** X3: on a map with no pixel whose truncated response exceeds the
    threshold (an empty or uniform map, for instance) the scan leaves the
    vector as it was; and from an empty vector the result is empty exactly
    when no pixel passes the threshold. *)
Theorem harris_no_candidate_unchanged :
  forall (overlap : KeyPoint -> KeyPoint -> Q) (maxOverlap : Q)
         (minResponse apertureSize : Z) (dst_norm : Mat),
    let quiet :=
      forall i j, (i < mat_rows dst_norm)%nat -> (j < mat_cols dst_norm)%nat ->
                  (int_of_float (mat_at dst_norm i j) <= minResponse)%Z in
    (quiet ->
     forall keypoints,
       harris_loop overlap maxOverlap minResponse apertureSize
                   dst_norm keypoints = keypoints)
    /\ (harris_loop overlap maxOverlap minResponse apertureSize dst_norm []
        = [] <-> quiet).
Proof.
  intros overlap maxOverlap minResponse apertureSize dst_norm quiet.
  assert (Hq : quiet -> candidates minResponse apertureSize dst_norm = []).
  { intros Hq.
    destruct (candidates minResponse apertureSize dst_norm) as [|c l] eqn:E;
      [reflexivity|].
    assert (Hin : In c (candidates minResponse apertureSize dst_norm))
      by (rewrite E; now left).
    apply in_candidates in Hin. destruct Hin as [i [j [Hi [Hj [Hr _]]]]].
    specialize (Hq i j Hi Hj). lia. }
  split.
  - intros Hquiet keypoints. rewrite harris_loop_fold, (Hq Hquiet).
    reflexivity.
  - split.
    + intros Hempty i j Hi Hj.
      destruct (Z_le_gt_dec (int_of_float (mat_at dst_norm i j)) minResponse)
        as [Hle|Hgt]; [exact Hle|exfalso].
      rewrite harris_loop_fold in Hempty.
      destruct (candidates minResponse apertureSize dst_norm) as [|c l] eqn:E.
      * assert (Hin : In (mkKeyPoint
                            (inject_Z (Z.of_nat j)) (inject_Z (Z.of_nat i))
                            (inject_Z (2 * apertureSize)) (-1)
                            (inject_Z (int_of_float (mat_at dst_norm i j)))
                            0%Z (-1)%Z)
                         (candidates minResponse apertureSize dst_norm)).
        { apply in_candidates. exists i, j. repeat split; auto. lia. }
        rewrite E in Hin. contradiction.
      * simpl in Hempty.
        pose proof (fold_step_length_le overlap maxOverlap l
                      (nms_step overlap maxOverlap [] c)) as Hlen.
        rewrite Hempty in Hlen. simpl in Hlen. lia.
    + intros Hquiet. rewrite harris_loop_fold, (Hq Hquiet). reflexivity.
Qed.

Lemma harris_no_candidate_unchanged_witness :
  harris_loop overlap_sign 0 120 3 image_4x6 [harris_kp 1 1 200]
  = [harris_kp 1 1 200].
Proof.
  refine (proj1 (harris_no_candidate_unchanged overlap_sign 0 120 3
                   image_4x6) _ [harris_kp 1 1 200]).
  intros i j Hi Hj. change (mat_rows image_4x6) with 4%nat in Hi.
  change (mat_cols image_4x6) with 6%nat in Hj.
  destruct i as [|[|[|[|i]]]]; try lia;
    destruct j as [|[|[|[|[|[|j]]]]]]; try lia; vm_compute; discriminate.
Defined.

(** X4: the strictly strongest candidate is always returned: a candidate
    whose response is strictly greater than that of every supplied keypoint
    and of every earlier candidate, and not exceeded by a later candidate,
    is in the vector after the scan. *)
Theorem harris_strongest_candidate_returned :
  forall (overlap : KeyPoint -> KeyPoint -> Q) (maxOverlap : Q)
         (minResponse apertureSize : Z) (dst_norm : Mat)
         (keypoints l1 l2 : list KeyPoint) (c : KeyPoint),
    candidates minResponse apertureSize dst_norm = l1 ++ c :: l2 ->
    (forall k, In k keypoints -> response k < response c) ->
    (forall d, In d l1 -> response d < response c) ->
    (forall d, In d l2 -> ~ response c < response d) ->
    In c (harris_loop overlap maxOverlap minResponse apertureSize
                      dst_norm keypoints).
Proof.
  intros overlap maxOverlap minResponse apertureSize dst_norm
         keypoints l1 l2 c Hc Hk H1 H2.
  rewrite harris_loop_fold, Hc, fold_left_app. simpl.
  apply fold_step_keeps; [|exact H2].
  apply nms_step_in_strongest. intros k Hin.
  apply fold_step_in in Hin. destruct Hin; auto.
Qed.

Lemma harris_strongest_candidate_returned_witness :
  In (harris_kp 4 3 255)
     (harris_loop overlap_sign 0 120 3 map_two_then_between []).
Proof.
  apply (harris_strongest_candidate_returned overlap_sign 0 120 3
           map_two_then_between []
           [harris_kp 0 0 130; harris_kp 8 0 130] [] (harris_kp 4 3 255)).
  - vm_compute. reflexivity.
  - intros k [].
  - intros d [<-|[<-|[]]]; vm_compute; reflexivity.
  - intros d [].
Defined.

(** X5: the response held at a position of the vector never decreases:
    whatever keypoint sits after the scan at a position the caller had
    filled, its response is at least the response of the keypoint supplied
    there. *)
Theorem harris_position_response_never_decreases :
  forall (overlap : KeyPoint -> KeyPoint -> Q) (maxOverlap : Q)
         (minResponse apertureSize : Z) (dst_norm : Mat)
         (keypoints : list KeyPoint) (p : nat) (k : KeyPoint),
    nth_error keypoints p = Some k ->
    exists k',
      nth_error (harris_loop overlap maxOverlap minResponse apertureSize
                             dst_norm keypoints) p = Some k'
      /\ response k <= response k'.
Proof.
  intros overlap maxOverlap minResponse apertureSize dst_norm
         keypoints p k Hp.
  rewrite harris_loop_fold. now apply fold_step_response_le.
Qed.

Lemma harris_position_response_never_decreases_witness :
  exists k',
    nth_error (harris_loop overlap_sign 0 120 3 map_two_then_between
                           [harris_kp 4 2 100]) 0 = Some k'
    /\ response (harris_kp 4 2 100) <= response k'.
Proof.
  apply (harris_position_response_never_decreases overlap_sign 0 120 3
           map_two_then_between [harris_kp 4 2 100] 0 (harris_kp 4 2 100)).
  reflexivity.
Defined.

(** X6: because the response is cast to [int] before it is compared, a
    pixel of the map yields a candidate exactly when its normalized
    response is at least the threshold plus one (for a non-negative
    threshold; at least 121 with the threshold 120 of the source). *)
Theorem harris_effective_threshold :
  forall (minResponse apertureSize : Z) (dst_norm : Mat) (i j : nat),
    (0 <= minResponse)%Z ->
    (i < mat_rows dst_norm)%nat -> (j < mat_cols dst_norm)%nat ->
    (In (newKeyPoint_at apertureSize i j
                        (int_of_float (mat_at dst_norm i j)))
        (candidates minResponse apertureSize dst_norm)
     <-> inject_Z (minResponse + 1) <= mat_at dst_norm i j).
Proof.
  intros minResponse apertureSize dst_norm i j HT Hi Hj.
  rewrite <- (int_of_float_gt_iff _ _ HT), in_candidates. split.
  - intros [i' [j' [_ [_ [Hr E]]]]]. unfold newKeyPoint_at in E.
    injection E as Ej Ei _.
    apply Nat2Z.inj in Ej, Ei. now subst i' j'.
  - intros Hr. exists i, j. repeat split; auto.
Qed.

Lemma harris_effective_threshold_witness :
  In (newKeyPoint_at 3 0 1 (int_of_float (mat_at map_fraction 0 1)))
     (candidates 120 3 map_fraction)
  <-> inject_Z (120 + 1) <= mat_at map_fraction 0 1.
Proof.
  apply (harris_effective_threshold 120 3 map_fraction 0 1).
  - lia.
  - vm_compute. lia.
  - vm_compute. lia.
Defined.

(** X7: on a response map of at most 2^24 rows and 2^24 columns, where
    [cv::Point2f] holds every pixel index exactly, the candidates come in
    row-major order with no repetition: each candidate lies strictly after
    the previous ones, by row and then by column, so no pixel gives two
    candidates. *)
Theorem harris_candidates_row_major :
  forall (minResponse apertureSize : Z) (dst_norm : Mat),
    (Z.of_nat (mat_rows dst_norm) <= 2 ^ 24)%Z ->
    (Z.of_nat (mat_cols dst_norm) <= 2 ^ 24)%Z ->
    StronglySorted
      (fun a b => pt_y a < pt_y b \/ (pt_y a == pt_y b /\ pt_x a < pt_x b))
      (candidates minResponse apertureSize dst_norm)
    /\ NoDup (candidates minResponse apertureSize dst_norm).
Proof.
  intros minResponse apertureSize dst_norm _ _.
  assert (Hrow : forall i a,
             In a (row_candidates minResponse apertureSize dst_norm i) ->
             pt_y a = inject_Z (Z.of_nat i)).
  { intros i a Ha. unfold row_candidates in Ha.
    apply in_flat_map in Ha. destruct Ha as [j [_ Ha]].
    destruct (int_of_float (mat_at dst_norm i j) >? minResponse)%Z;
      [|contradiction].
    destruct Ha as [<-|[]]. reflexivity. }
  assert (Hlt : forall m n : nat,
             (m < n)%nat -> inject_Z (Z.of_nat m) < inject_Z (Z.of_nat n)).
  { intros m n H. rewrite <- Zlt_Qlt. lia. }
  assert (Hs : StronglySorted
                 (fun a b => pt_y a < pt_y b
                             \/ (pt_y a == pt_y b /\ pt_x a < pt_x b))
                 (candidates minResponse apertureSize dst_norm)).
  { unfold candidates. apply StronglySorted_flat_map_seq.
    - intros i. unfold row_candidates. apply StronglySorted_flat_map_seq.
      + intros j.
        destruct (int_of_float (mat_at dst_norm i j) >? minResponse)%Z;
          repeat constructor.
      + intros j j' a b Hjj Ha Hb.
        destruct (int_of_float (mat_at dst_norm i j) >? minResponse)%Z;
          [|contradiction].
        destruct (int_of_float (mat_at dst_norm i j') >? minResponse)%Z;
          [|contradiction].
        destruct Ha as [<-|[]]. destruct Hb as [<-|[]]. right. simpl.
        split; [reflexivity|now apply Hlt].
    - intros i i' a b Hii Ha Hb. left.
      rewrite (Hrow i a Ha), (Hrow i' b Hb). now apply Hlt. }
  split; [exact Hs|].
  apply (StronglySorted_NoDup _ _ (fun x H =>
           match H with
           | or_introl H1 => Qlt_irrefl _ H1
           | or_intror (conj _ H2) => Qlt_irrefl _ H2
           end) Hs).
Qed.

Lemma harris_candidates_row_major_witness :
  NoDup (candidates 120 3 map_threshold).
Proof.
  refine (proj2 (harris_candidates_row_major 120 3 map_threshold _ _));
    vm_compute; discriminate.
Defined.

(** Candidates that overlap no keypoint of the vector and no earlier
    candidate are appended one after the other. *)
Lemma fold_step_apart (overlap : KeyPoint -> KeyPoint -> Q) (maxOverlap : Q)
      (l acc : list KeyPoint) :
  (forall c k, In c l -> In k acc -> ~ overlapping overlap maxOverlap c k) ->
  ForallOrdPairs
    (fun earlier later => ~ overlapping overlap maxOverlap later earlier) l ->
  fold_left (nms_step overlap maxOverlap) l acc = acc ++ l.
Proof.
  revert acc. induction l as [|c l IH]; intros acc Hacc Hl; simpl.
  - now rewrite app_nil_r.
  - inversion Hl as [|? ? Hc Hrest]; subst.
    rewrite nms_step_append by (intros k Hk; apply Hacc; [now left|exact Hk]).
    rewrite IH; [now rewrite <- app_assoc| |exact Hrest].
    intros d k Hd Hk. apply in_app_or in Hk. destruct Hk as [Hk|[<-|[]]].
    + apply Hacc; [now right|exact Hk].
    + rewrite Forall_forall in Hc. now apply Hc.
Qed.

(** X8: when no candidate overlaps, by more than [maxOverlap], a supplied
    keypoint or an earlier candidate, the suppression changes nothing: the
    vector after the scan is the supplied vector followed by all the
    candidates in scan order.  Nothing is asked of the supplied keypoints
    among themselves. *)
Theorem harris_disjoint_candidates_all_kept :
  forall (overlap : KeyPoint -> KeyPoint -> Q) (maxOverlap : Q)
         (minResponse apertureSize : Z) (dst_norm : Mat)
         (keypoints : list KeyPoint),
    (forall c k,
        In c (candidates minResponse apertureSize dst_norm) ->
        In k keypoints ->
        ~ overlapping overlap maxOverlap c k) ->
    ForallOrdPairs
      (fun earlier later => ~ overlapping overlap maxOverlap later earlier)
      (candidates minResponse apertureSize dst_norm) ->
    harris_loop overlap maxOverlap minResponse apertureSize
                dst_norm keypoints
    = keypoints ++ candidates minResponse apertureSize dst_norm.
Proof.
  intros overlap maxOverlap minResponse apertureSize dst_norm keypoints
         Hk Hc.
  rewrite harris_loop_fold. now apply fold_step_apart.
Qed.

Lemma harris_disjoint_candidates_all_kept_witness :
  harris_loop overlap_sign 0 120 3 map_far_apart
              [harris_kp 4 20 90; harris_kp 5 20 80]
  = [harris_kp 4 20 90; harris_kp 5 20 80;
     harris_kp 0 0 200; harris_kp 9 0 150].
Proof.
  refine (harris_disjoint_candidates_all_kept overlap_sign 0 120 3
            map_far_apart [harris_kp 4 20 90; harris_kp 5 20 80] _ _).
  - intros c k Hc Hk. vm_compute in Hc.
    destruct Hc as [<-|[<-|[]]]; destruct Hk as [<-|[<-|[]]];
      vm_compute; discriminate.
  - vm_compute. repeat constructor; vm_compute; discriminate.
Defined.

(** X9: what one suppression step guarantees for its candidate: right
    after the step the candidate is in the vector, or the vector is
    unchanged and holds a keypoint the candidate overlaps by more than
    [maxOverlap], and no keypoint it overlaps has a lower response. *)
Theorem nms_step_candidate_covered :
  forall (overlap : KeyPoint -> KeyPoint -> Q) (maxOverlap : Q)
         (keypoints : list KeyPoint) (c : KeyPoint),
    In c (nms_step overlap maxOverlap keypoints c)
    \/ (nms_step overlap maxOverlap keypoints c = keypoints
        /\ (exists k, In k keypoints /\ overlapping overlap maxOverlap c k)
        /\ forall k, In k keypoints -> overlapping overlap maxOverlap c k ->
                     ~ response k < response c).
Proof.
  intros. apply nms_step_cover.
Qed.

Lemma nms_step_candidate_covered_witness :
  In (harris_kp 4 3 200)
     (nms_step overlap_sign 0 [harris_kp 0 0 250] (harris_kp 4 3 200))
  \/ nms_step overlap_sign 0 [harris_kp 0 0 250] (harris_kp 4 3 200)
     = [harris_kp 0 0 250].
Proof.
  destruct (nms_step_candidate_covered overlap_sign 0
              [harris_kp 0 0 250] (harris_kp 4 3 200)) as [H|[H _]].
  - left. exact H.
  - right. exact H.
Defined.

(** ** Further properties of the descriptor matcher *)

Lemma ratio_test_fault_kind (knn : list (list DMatch))
      (matches : list DMatch) (f : Fault) :
  snd (ratio_test knn matches) = Some f -> f = IndexOutOfRange.
Proof.
  destruct (ratio_test_fault_cases knn matches) as [[E _]|[E _]];
    rewrite E; congruence.
Qed.

(** X10: the faults of [matchDescriptors].  The call dereferences a null
    matcher exactly when the matcher type is neither MAT_BF nor MAT_FLANN
    and the selector is SEL_NN or SEL_KNN; it reads out of range exactly
    when the selector is SEL_KNN, the matcher exists and some neighbour
    list holds fewer than two entries; with any other selector nothing is
    matched, no fault occurs and the match vector is left as it was. *)
Theorem matchDescriptors_fault_cases :
  forall (BFMatcher_create : NormType -> bool -> DescriptorMatcher)
         (FlannBasedMatcher_create : DescriptorMatcher)
         (convertTo : Mat -> MatDepth -> Mat)
         (descSource descRef : Mat) (matches : list DMatch)
         (descriptorType matcherType selectorType : string),
    let out :=
      matchDescriptors BFMatcher_create FlannBasedMatcher_create convertTo
                       descSource descRef matches
                       descriptorType matcherType selectorType in
    (fault out = Some NullPointerDereference
     <-> (matcherType <> "MAT_BF"%string
          /\ matcherType <> "MAT_FLANN"%string)
         /\ (selectorType = "SEL_NN"%string
             \/ selectorType = "SEL_KNN"%string))
    /\ (fault out = Some IndexOutOfRange
        <-> selectorType = "SEL_KNN"%string
            /\ exists m s r,
                configure_matcher BFMatcher_create FlannBasedMatcher_create
                                  convertTo descSource descRef
                                  descriptorType matcherType
                = (Some m, s, r)
                /\ Exists (fun it => (length it < 2)%nat)
                          (dm_knnMatch m s r 2))
    /\ (selectorType <> "SEL_NN"%string ->
        selectorType <> "SEL_KNN"%string ->
        fault out = None /\ matches_after out = matches).
Proof.
  intros BF FL conv descSource descRef matches dT mT sT out.
  pose proof (configure_some_iff BF FL conv descSource descRef dT mT) as Hm.
  subst out. unfold matchDescriptors.
  destruct (configure_matcher BF FL conv descSource descRef dT mT)
    as [[m s] r] eqn:Hc.
  simpl in Hm.
  assert (Hnone : m = None ->
                  mT <> "MAT_BF"%string /\ mT <> "MAT_FLANN"%string).
  { intros ->. split; intros E; destruct Hm as [_ Hm];
      [destruct (Hm (or_introl E))|destruct (Hm (or_intror E))];
      discriminate. }
  assert (Hsome : forall x, m = Some x ->
                  ~ (mT <> "MAT_BF"%string /\ mT <> "MAT_FLANN"%string)).
  { intros x -> [H1 H2]. destruct Hm as [Hm _].
    destruct (Hm (ex_intro _ x eq_refl)); contradiction. }
  destruct (sT =? "SEL_NN")%string eqn:Enn.
  - apply String.eqb_eq in Enn. subst sT.
    destruct m as [x|]; simpl.
    + repeat split; try discriminate; try congruence.
      * intros [H _]. exfalso. exact (Hsome x eq_refl H).
      * intros [H _]. discriminate.
    + repeat split; try discriminate; try congruence;
        try (apply Hnone; reflexivity); auto.
      intros [H _]. discriminate.
  - destruct (sT =? "SEL_KNN")%string eqn:Eknn.
    + apply String.eqb_eq in Eknn. subst sT.
      destruct m as [x|]; simpl.
      * destruct (ratio_test (dm_knnMatch x s r 2) matches)
          as [ms f] eqn:Er; simpl.
        assert (Ef : f = snd (ratio_test (dm_knnMatch x s r 2) matches))
          by (rewrite Er; reflexivity).
        split; [|split].
        -- split.
           ++ intros H. rewrite H in Ef. symmetry in Ef.
              apply ratio_test_fault_kind in Ef. discriminate.
           ++ intros [H _]. exfalso. exact (Hsome x eq_refl H).
        -- rewrite Ef, ratio_test_fault_iff. split.
           ++ intros H. split; [reflexivity|]. exists x, s, r. now split.
           ++ intros [_ [m' [s' [r' [E H]]]]]. now injection E as <- <- <-.
        -- intros _ H. now contradiction H.
      * split; [|split].
        -- split; [intros _|reflexivity].
           split; [apply Hnone; reflexivity|now right].
        -- split; [discriminate|].
           intros [_ [m' [s' [r' [E _]]]]]. discriminate.
        -- intros _ H. now contradiction H.
    + apply String.eqb_neq in Enn, Eknn. simpl.
      repeat split; try discriminate; auto.
      * intros [_ [H|H]]; contradiction.
      * intros [H _]. contradiction.
Qed.

Lemma matchDescriptors_fault_cases_witness :
  fault (matchDescriptors (fun _ _ => exhaustive_matcher) exhaustive_matcher
                          convertTo_exact desc_8u_source desc_8u_ref []
                          "DES_BINARY" "MAT_FLANN" "SEL_BEST")
  = None.
Proof.
  refine (proj1 (proj2 (proj2 (matchDescriptors_fault_cases
            (fun _ _ => exhaustive_matcher) exhaustive_matcher
            convertTo_exact desc_8u_source desc_8u_ref []
            "DES_BINARY" "MAT_FLANN" "SEL_BEST")) _ _)); discriminate.
Defined.

(** X11: except for a SEL_NN run with an existing matcher, whose result
    vector is the one the library writes, [matchDescriptors] only appends:
    the matches the caller passed in are kept, in order, at the front of
    the vector, also when the run ends in a fault. *)
Theorem matchDescriptors_keeps_supplied_matches :
  forall (BFMatcher_create : NormType -> bool -> DescriptorMatcher)
         (FlannBasedMatcher_create : DescriptorMatcher)
         (convertTo : Mat -> MatDepth -> Mat)
         (descSource descRef : Mat) (matches : list DMatch)
         (descriptorType matcherType selectorType : string),
    (selectorType <> "SEL_NN"%string
     \/ (matcherType <> "MAT_BF"%string
         /\ matcherType <> "MAT_FLANN"%string)) ->
    exists produced,
      matches_after
        (matchDescriptors BFMatcher_create FlannBasedMatcher_create
                          convertTo descSource descRef matches
                          descriptorType matcherType selectorType)
      = matches ++ produced.
Proof.
  intros BF FL conv descSource descRef matches dT mT sT H.
  pose proof (configure_some_iff BF FL conv descSource descRef dT mT) as Hm.
  unfold matchDescriptors.
  destruct (configure_matcher BF FL conv descSource descRef dT mT)
    as [[m s] r] eqn:Hc.
  simpl in Hm.
  destruct (sT =? "SEL_NN")%string eqn:Enn.
  - apply String.eqb_eq in Enn.
    destruct H as [H|[H1 H2]]; [contradiction|].
    destruct m as [x|]; simpl.
    + destruct Hm as [Hm _].
      destruct (Hm (ex_intro _ x eq_refl)); contradiction.
    + exists []. now rewrite app_nil_r.
  - destruct (sT =? "SEL_KNN")%string.
    + destruct m as [x|]; simpl.
      * destruct (ratio_test_appends (dm_knnMatch x s r 2) matches)
          as [produced [E _]].
        exists produced.
        destruct (ratio_test (dm_knnMatch x s r 2) matches); exact E.
      * exists []. now rewrite app_nil_r.
    + simpl. exists []. now rewrite app_nil_r.
Qed.

Lemma matchDescriptors_keeps_supplied_matches_witness :
  exists produced,
    matches_after
      (matchDescriptors (fun _ _ => exhaustive_matcher) exhaustive_matcher
                        convertTo_exact desc_32f_source desc_one_ref
                        [mkDMatch 7 7 0 3] "DES_HOG" "MAT_BF" "SEL_KNN")
    = [mkDMatch 7 7 0 3] ++ produced.
Proof.
  apply (matchDescriptors_keeps_supplied_matches
           (fun _ _ => exhaustive_matcher) exhaustive_matcher
           convertTo_exact desc_32f_source desc_one_ref
           [mkDMatch 7 7 0 3] "DES_HOG" "MAT_BF" "SEL_KNN").
  left. discriminate.
Defined.

(** X12: the role of the descriptor type.  With MAT_BF the matcher is
    created with the Hamming norm exactly for the type DES_BINARY and with
    the L2 norm for every other string, cross-check always off; any two
    descriptor types other than DES_BINARY give the same run, and with a
    matcher type other than MAT_BF the descriptor type is not looked at. *)
Theorem matchDescriptors_descriptor_type_role :
  forall (BFMatcher_create : NormType -> bool -> DescriptorMatcher)
         (FlannBasedMatcher_create : DescriptorMatcher)
         (convertTo : Mat -> MatDepth -> Mat)
         (descSource descRef : Mat) (matches : list DMatch)
         (matcherType selectorType : string),
    (forall dT,
        configure_matcher BFMatcher_create FlannBasedMatcher_create convertTo
                          descSource descRef dT "MAT_BF"
        = (Some (BFMatcher_create
                   (if (dT =? "DES_BINARY")%string
                    then NORM_HAMMING else NORM_L2) false),
           descSource, descRef))
    /\ (forall dT dT',
           dT <> "DES_BINARY"%string -> dT' <> "DES_BINARY"%string ->
           matchDescriptors BFMatcher_create FlannBasedMatcher_create
                            convertTo descSource descRef matches
                            dT matcherType selectorType
           = matchDescriptors BFMatcher_create FlannBasedMatcher_create
                              convertTo descSource descRef matches
                              dT' matcherType selectorType)
    /\ (forall dT dT',
           matcherType <> "MAT_BF"%string ->
           matchDescriptors BFMatcher_create FlannBasedMatcher_create
                            convertTo descSource descRef matches
                            dT matcherType selectorType
           = matchDescriptors BFMatcher_create FlannBasedMatcher_create
                              convertTo descSource descRef matches
                              dT' matcherType selectorType).
Proof.
  intros BF FL conv descSource descRef matches mT sT.
  split; [reflexivity|]. split.
  - intros dT dT' H H'. apply String.eqb_neq in H, H'.
    unfold matchDescriptors, configure_matcher. now rewrite H, H'.
  - intros dT dT' H. apply String.eqb_neq in H.
    unfold matchDescriptors, configure_matcher. now rewrite H.
Qed.

Lemma matchDescriptors_descriptor_type_role_witness :
  matchDescriptors (fun _ _ => exhaustive_matcher) exhaustive_matcher
                   convertTo_exact desc_32f_source desc_32f_ref []
                   "DES_HOG" "MAT_BF" "SEL_NN"
  = matchDescriptors (fun _ _ => exhaustive_matcher) exhaustive_matcher
                     convertTo_exact desc_32f_source desc_32f_ref []
                     "DES_BINRY" "MAT_BF" "SEL_NN".
Proof.
  refine (proj1 (proj2 (matchDescriptors_descriptor_type_role
            (fun _ _ => exhaustive_matcher) exhaustive_matcher
            convertTo_exact desc_32f_source desc_32f_ref []
            "MAT_BF" "SEL_NN")) "DES_HOG"%string "DES_BINRY"%string _ _);
    discriminate.
Defined.

(** X13: the in-place conversion happens at most once.  When the library's
    conversion yields a matrix of the requested type, the matrices left by
    a MAT_FLANN call are both of type CV_32F, and any further call of
    [matchDescriptors] on them leaves them as they are. *)
Theorem matchDescriptors_conversion_settles :
  forall (BFMatcher_create : NormType -> bool -> DescriptorMatcher)
         (FlannBasedMatcher_create : DescriptorMatcher)
         (convertTo : Mat -> MatDepth -> Mat)
         (descSource descRef : Mat) (matches matches' : list DMatch)
         (dT sT dT' mT' sT' : string),
    (forall m t, mat_type (convertTo m t) = t) ->
    mat_type descSource <> CV_32F \/ mat_type descRef <> CV_32F ->
    let out :=
      matchDescriptors BFMatcher_create FlannBasedMatcher_create convertTo
                       descSource descRef matches dT "MAT_FLANN" sT in
    let out' :=
      matchDescriptors BFMatcher_create FlannBasedMatcher_create convertTo
                       (descSource_after out) (descRef_after out) matches'
                       dT' mT' sT' in
    mat_type (descSource_after out) = CV_32F
    /\ mat_type (descRef_after out) = CV_32F
    /\ descSource_after out' = descSource_after out
    /\ descRef_after out' = descRef_after out.
Proof.
  intros BF FL conv descSource descRef matches matches' dT sT dT' mT' sT'
         Hty Hne out out'.
  assert (E : negb (MatDepth_eqb (mat_type descSource) CV_32F)
              || negb (MatDepth_eqb (mat_type descRef) CV_32F) = true).
  { destruct Hne as [H|H].
    - destruct (mat_type descSource); try congruence; reflexivity.
    - destruct (mat_type descRef); try congruence;
        simpl; rewrite ?orb_true_r; reflexivity. }
  assert (H1 := matchDescriptors_matrices BF FL conv descSource descRef
                                          matches dT "MAT_FLANN" sT).
  fold out in H1. unfold configure_matcher in H1. simpl in H1.
  rewrite E in H1. simpl in H1. injection H1 as Hs Hr.
  assert (Ts : mat_type (descSource_after out) = CV_32F)
    by (rewrite Hs; apply Hty).
  assert (Tr : mat_type (descRef_after out) = CV_32F)
    by (rewrite Hr; apply Hty).
  split; [exact Ts|]. split; [exact Tr|].
  assert (H2 := matchDescriptors_matrices BF FL conv
                  (descSource_after out) (descRef_after out)
                  matches' dT' mT' sT').
  fold out' in H2. unfold configure_matcher in H2.
  rewrite Ts, Tr in H2. simpl in H2.
  destruct (mT' =? "MAT_BF")%string;
    [|destruct (mT' =? "MAT_FLANN")%string];
    simpl in H2; injection H2 as H2 H3; now split.
Qed.

Lemma matchDescriptors_conversion_settles_witness :
  let out :=
    matchDescriptors (fun _ _ => exhaustive_matcher) exhaustive_matcher
                     convertTo_exact desc_8u_source desc_8u_ref []
                     "DES_BINARY" "MAT_FLANN" "SEL_NN" in
  mat_type (descSource_after out) = CV_32F
  /\ descSource_after
       (matchDescriptors (fun _ _ => exhaustive_matcher) exhaustive_matcher
                         convertTo_exact (descSource_after out)
                         (descRef_after out) []
                         "DES_BINARY" "MAT_FLANN" "SEL_KNN")
     = descSource_after out.
Proof.
  intros out.
  assert (Hne : mat_type desc_8u_source <> CV_32F
                \/ mat_type desc_8u_ref <> CV_32F)
    by (left; discriminate).
  destruct (matchDescriptors_conversion_settles
              (fun _ _ => exhaustive_matcher) exhaustive_matcher
              convertTo_exact desc_8u_source desc_8u_ref [] []
              "DES_BINARY" "SEL_NN" "DES_BINARY" "MAT_FLANN" "SEL_KNN"
              (fun m t => eq_refl) Hne)
    as [H1 [_ [H3 _]]].
  split; [exact H1|exact H3].
Defined.

(** X15: the ratio test rejects ambiguous pairs: with non-negative
    distances, a best neighbour as far as the second one is never accepted
    (in particular not when both are exact duplicates at distance 0), and
    an accepted best neighbour is strictly nearer than the second. *)
Theorem ratio_test_rejects_ties :
  forall best second : DMatch,
    (0 <= distance best -> distance second <= distance best ->
     ratio_accepts best second = false)
    /\ (0 <= distance second -> ratio_accepts best second = true ->
        distance best < distance second).
Proof.
  intros best second. split.
  - intros Hb Hle. destruct (ratio_accepts best second) eqn:E;
      [|reflexivity].
    apply ratio_accepts_iff in E. lra.
  - intros Hs E. apply ratio_accepts_iff in E. lra.
Qed.

Lemma ratio_test_rejects_ties_witness :
  ratio_accepts (mkDMatch 0 3 0 0) (mkDMatch 0 5 0 0) = false.
Proof.
  refine (proj1 (ratio_test_rejects_ties (mkDMatch 0 3 0 0)
                                         (mkDMatch 0 5 0 0)) _ _);
    vm_compute; discriminate.
Defined.

(** ** Further properties of the dispatch *)

(** X16: which type strings work.  [descKeypoints] reaches the library
    exactly for BRISK, ORB and AKAZE, and [detKeypointsModern] exactly for
    FAST, BRISK, ORB and AKAZE (the comparison is exact, letter case
    included); every other string ends in the null dereference.  So every
    type that works as a descriptor also works as a detector. *)
Theorem dispatch_supported_types :
  forall (compute : Feature2D -> Mat -> list KeyPoint -> list KeyPoint * Mat)
         (detect : Feature2D -> Mat -> list KeyPoint)
         (keypoints : list KeyPoint) (img descriptors : Mat) (s : string),
    ((exists res,
         descKeypoints compute keypoints img descriptors s = Returned res)
     <-> s = "BRISK"%string \/ s = "ORB"%string \/ s = "AKAZE"%string)
    /\ ((exists res,
            detKeypointsModern detect keypoints img s = Returned res)
        <-> s = "FAST"%string \/ s = "BRISK"%string
            \/ s = "ORB"%string \/ s = "AKAZE"%string)
    /\ ((exists res,
            descKeypoints compute keypoints img descriptors s = Returned res)
        -> exists res',
            detKeypointsModern detect keypoints img s = Returned res')
    /\ (descKeypoints compute keypoints img descriptors s
        = Faulted NullPointerDereference
        \/ exists e,
            descKeypoints compute keypoints img descriptors s
            = Returned (compute e img keypoints))
    /\ (detKeypointsModern detect keypoints img s
        = Faulted NullPointerDereference
        \/ exists d,
            detKeypointsModern detect keypoints img s
            = Returned (detect d img)).
Proof.
  intros compute detect keypoints img descriptors s.
  assert (Hd : (exists res,
                   descKeypoints compute keypoints img descriptors s
                   = Returned res)
               <-> s = "BRISK"%string \/ s = "ORB"%string
                   \/ s = "AKAZE"%string).
  { unfold descKeypoints, descKeypoints_branch.
    destruct (s =? "BRISK")%string eqn:E1;
      [apply String.eqb_eq in E1; simpl; split; eauto|].
    destruct (s =? "ORB")%string eqn:E2;
      [apply String.eqb_eq in E2; simpl; split; eauto|].
    destruct (s =? "AKAZE")%string eqn:E3;
      [apply String.eqb_eq in E3; simpl; split; eauto|].
    apply String.eqb_neq in E1, E2, E3.
    assert (Hnone : descKeypoints_extractor
                      (if (s =? "FREAK")%string then Desc_FREAK
                       else if (s =? "SIFT")%string then Desc_SIFT
                            else Desc_else) = None).
    { destruct (s =? "FREAK")%string; [reflexivity|].
      now destruct (s =? "SIFT")%string. }
    rewrite Hnone. split; [intros [res H]; discriminate|].
    intros [H|[H|H]]; contradiction. }
  assert (Hm : (exists res,
                   detKeypointsModern detect keypoints img s = Returned res)
               <-> s = "FAST"%string \/ s = "BRISK"%string
                   \/ s = "ORB"%string \/ s = "AKAZE"%string).
  { unfold detKeypointsModern, detKeypointsModern_branch.
    destruct ("FAST" =? s)%string eqn:E0;
      [apply String.eqb_eq in E0; simpl; split; eauto|].
    destruct ("BRISK" =? s)%string eqn:E1;
      [apply String.eqb_eq in E1; simpl; split; eauto|].
    destruct ("ORB" =? s)%string eqn:E2;
      [apply String.eqb_eq in E2; simpl; split; eauto 6|].
    destruct ("AKAZE" =? s)%string eqn:E3;
      [apply String.eqb_eq in E3; simpl; split; eauto 6|].
    apply String.eqb_neq in E0, E1, E2, E3.
    assert (Hnone : detKeypointsModern_detector
                      (if ("FREAK" =? s)%string then Det_FREAK
                       else if ("SIFT" =? s)%string then Det_SIFT
                            else Det_else) = None).
    { destruct ("FREAK" =? s)%string; [reflexivity|].
      now destruct ("SIFT" =? s)%string. }
    rewrite Hnone. split; [intros [res H]; discriminate|].
    intros [H|[H|[H|H]]]; symmetry in H; contradiction. }
  split; [exact Hd|]. split; [exact Hm|]. split; [|split].
  - intros H. apply Hm. apply Hd in H. tauto.
  - unfold descKeypoints.
    destruct (descKeypoints_extractor (descKeypoints_branch s)) as [e|];
      [right; now exists e|now left].
  - unfold detKeypointsModern.
    destruct (detKeypointsModern_detector (detKeypointsModern_branch s))
      as [d|]; [right; now exists d|now left].
Qed.

Lemma dispatch_supported_types_witness :
  exists res',
    detKeypointsModern (fun _ _ => []) [] image_4x6 "ORB" = Returned res'.
Proof.
  refine (proj1 (proj2 (proj2 (dispatch_supported_types
            (fun _ _ kps => (kps, mkMat CV_8U [])) (fun _ _ => [])
            [] image_4x6 (mkMat CV_8U []) "ORB"))) _).
  eexists. reflexivity.
Defined.

(** ** Properties of the Shi-Tomasi extraction *)

Lemma fold_left_push_back {A B} (f : A -> B) (l : list A) (acc : list B) :
  fold_left (fun acc x => acc ++ [f x]) l acc = acc ++ map f l.
Proof.
  revert acc. induction l as [|a l IH]; intros acc; simpl.
  - now rewrite app_nil_r.
  - now rewrite IH, <- app_assoc.
Qed.

(** X17: [detKeypointsShiTomasi] only appends: the vector after the call
    is the supplied vector, untouched, followed by one keypoint per corner
    the library returned, in the library's order, each at its corner with
    size 4 and the default response 0, angle -1, octave 0 and class id
    -1.  The library is asked for corners at least 4 pixels apart. *)
Theorem detKeypointsShiTomasi_appends :
  forall (goodFeaturesToTrack :
            Mat -> Z -> Q -> Q -> Mat -> Z -> bool -> Q -> list (Q * Q))
         (keypoints : list KeyPoint) (img : Mat),
    let corners :=
      goodFeaturesToTrack img (shiTomasi_maxCorners img) (1 # 100) 4
                          (mkMat CV_8U []) 4%Z false (4 # 100) in
    let result := detKeypointsShiTomasi goodFeaturesToTrack keypoints img in
    result
    = keypoints
      ++ map (fun c => mkKeyPoint (fst c) (snd c) 4 (-1) 0 0%Z (-1)%Z)
             corners
    /\ length result = (length keypoints + length corners)%nat
    /\ (forall p k, nth_error keypoints p = Some k ->
                    nth_error result p = Some k)
    /\ (forall k, In k result ->
                  In k keypoints
                  \/ (In (pt_x k, pt_y k) corners
                      /\ size k = 4 /\ response k = 0 /\ angle k = -1
                      /\ octave k = 0%Z /\ class_id k = (-1)%Z)).
Proof.
  intros gft keypoints img corners result.
  assert (E : result
              = keypoints
                ++ map (fun c => mkKeyPoint (fst c) (snd c) 4 (-1) 0
                                            0%Z (-1)%Z) corners).
  { subst result. unfold detKeypointsShiTomasi.
    rewrite fold_left_push_back. reflexivity. }
  split; [exact E|]. rewrite E. split; [|split].
  - now rewrite length_app, length_map.
  - intros p k Hp. rewrite nth_error_app1; [exact Hp|].
    apply nth_error_Some. congruence.
  - intros k Hk. apply in_app_or in Hk. destruct Hk as [Hk|Hk]; [now left|].
    right. apply in_map_iff in Hk. destruct Hk as [[x y] [<- Hc]].
    simpl. repeat split; auto.
Qed.

Lemma detKeypointsShiTomasi_appends_witness :
  detKeypointsShiTomasi (goodFeatures_given [(1, 2); (5, 3)])
                        [harris_kp 0 0 130] image_4x6
  = [harris_kp 0 0 130;
     mkKeyPoint 1 2 4 (-1) 0 0%Z (-1)%Z;
     mkKeyPoint 5 3 4 (-1) 0 0%Z (-1)%Z].
Proof.
  rewrite (proj1 (detKeypointsShiTomasi_appends
                    (goodFeatures_given [(1, 2); (5, 3)])
                    [harris_kp 0 0 130] image_4x6)).
  vm_compute. reflexivity.
Defined.

(** X18: for an image of fewer than 2^31 pixels, where the [int] product
    [img.rows * img.cols] does not overflow, the corner budget handed to
    the library is the number of pixels divided by 4, rounded down; it is
    0 exactly for an image of fewer than four pixels. *)
Theorem shiTomasi_corner_budget :
  forall img : Mat,
    (Z.of_nat (mat_rows img) * Z.of_nat (mat_cols img) < 2 ^ 31)%Z ->
    shiTomasi_maxCorners img
    = Z.of_nat (mat_rows img * mat_cols img / 4)
    /\ (shiTomasi_maxCorners img = 0%Z
        <-> (mat_rows img * mat_cols img < 4)%nat).
Proof.
  intros img _.
  assert (E : shiTomasi_maxCorners img
              = Z.of_nat (mat_rows img * mat_cols img / 4)).
  { unfold shiTomasi_maxCorners, int_of_float.
    change (std_max 1 ((1 - 0) * inject_Z 4)) with (4 # 1).
    unfold Qdiv, Qmult, Qinv, inject_Z. simpl Qnum. simpl Qden.
    rewrite Z.mul_1_r, <- Nat2Z.inj_mul.
    rewrite Z.quot_div_nonneg by lia.
    now rewrite (Nat2Z.inj_div _ 4). }
  split; [exact E|]. rewrite E.
  pose proof (Nat.div_small_iff (mat_rows img * mat_cols img) 4) as H.
  split; intros H'.
  - apply H; lia.
  - assert (mat_rows img * mat_cols img / 4 = 0)%nat by (apply H; lia).
    lia.
Qed.

Lemma shiTomasi_corner_budget_witness :
  shiTomasi_maxCorners image_4x6 = 6%Z.
Proof.
  rewrite (proj1 (shiTomasi_corner_budget image_4x6 eq_refl)).
  reflexivity.
Defined.
